(** * Disclose DSL: timing resolver, colour model, time references, flow
      composition and distortion, embedded from the TypeScript sources.

    Numbers.  A JavaScript [number] is modelled as an exact rational [Q];
    comparisons are the boolean tests the source writes ([<=], [>], [<]) and
    [%] is the truncating remainder.  Rounding error, infinities and the
    not-a-number value of IEEE arithmetic are outside this model, except where
    the source can produce not-a-number from a string ([parseInt], [Number]):
    there the result type is [number], a rational or [NaN].

    Strings.  A JavaScript string is a list of code units, modelled as
    [list ascii]; the characters above 255 are outside the model. *)

From Stdlib Require Import QArith Qround ZArith Lia Lra Psatz Bool List.
From Stdlib Require Import Ascii String DecimalString.
Import ListNotations.

Local Open Scope Q_scope.

(** ** Numbers *)

(** [a < b] as the source tests it. *)
Definition Qltb (a b : Q) : bool := negb (Qle_bool b a).

(** Truncation toward zero. *)
Definition Qtrunc (q : Q) : Z := Z.quot (Qnum q) (Zpos (Qden q)).

(** JavaScript [a % b]: the remainder has the sign of the dividend. *)
Definition Qrem (a b : Q) : Q := a - b * inject_Z (Qtrunc (a / b)).

(** ** Timing resolver (renderer module) *)

Inductive EaseSpec : Type :=
| linear
| easeIn
| easeOut
| easeInOut
| cubicBezierSpec (x1 y1 x2 y2 : Q).

(** [cubicBezier(x1, y1, x2, y2, t)] *)
Definition cubicBezier (x1 y1 x2 y2 t : Q) : Q :=
  let u := 1 - t in
  let tt := t * t in
  let uu := u * u in
  let uuu := uu * u in
  let ttt := tt * t in
  uuu * 0 + 3 * uu * t * y1 + 3 * u * tt * y2 + ttt * 1.

(** [applyEase(t, ease)]; [None] is the omitted argument.
    [Math.pow(x, 2)] is written [x * x]. *)
Definition applyEase (t : Q) (ease : option EaseSpec) : Q :=
  match ease with
  | None | Some linear => t
  | Some easeIn => t * t
  | Some easeOut => 1 - (1 - t) * (1 - t)
  | Some easeInOut =>
      if Qltb t (1 # 2) then 2 * t * t
      else 1 - ((-2 * t + 2) * (-2 * t + 2)) / 2
  | Some (cubicBezierSpec x1 y1 x2 y2) => cubicBezier x1 y1 x2 y2 t
  end.

(** [phase(time, duration, loop, start, delay, repeatDelay, ease, stagger,
    index)].  The defaults of the source ([loop = false], [start = 0],
    [delay = 0], [repeatDelay = 0], [stagger = 0], [index = 0]) are supplied
    by the caller of this definition. *)
Definition phase (time duration : Q) (loop : bool)
    (start delay repeatDelay : Q) (ease : option EaseSpec)
    (stagger index : Q) : Q :=
  if Qle_bool duration 0 then 1
  else
    let local := time - start - delay - index * stagger in
    if Qle_bool local 0 then 0
    else if loop then
      let cycle := duration + repeatDelay in
      let inCycle := if Qltb 0 cycle then Qrem local cycle else local in
      if Qltb duration inCycle then 1
      else applyEase (inCycle / duration) ease
    else
      let t := local / duration in
      applyEase (if Qltb 1 t then 1 else t) ease.

(** [lerp(a, b, t)] *)
Definition lerp (a b t : Q) : Q := a + (b - a) * t.

(** Easings whose curve stays inside the unit interval: the four named ones,
    and a cubic Bezier whose two control ordinates lie in [0, 1]. *)
Definition unit_ease (ease : option EaseSpec) : Prop :=
  match ease with
  | Some (cubicBezierSpec _ y1 _ y2) => (0 <= y1 <= 1) /\ (0 <= y2 <= 1)
  | _ => True
  end.

(** The looping branch of [phase] as the specification words it, with a
    negative cycle replaced by [duration]; kept only for comparison with
    [phase]. *)
Definition phase_clamped_cycle (time duration : Q)
    (start delay repeatDelay : Q) (ease : option EaseSpec)
    (stagger index : Q) : Q :=
  if Qle_bool duration 0 then 1
  else
    let local := time - start - delay - index * stagger in
    if Qle_bool local 0 then 0
    else
      let cycle0 := duration + repeatDelay in
      let cycle := if Qltb cycle0 0 then duration else cycle0 in
      let inCycle := if Qltb 0 cycle then Qrem local cycle else local in
      if Qltb duration inCycle then 1
      else applyEase (inCycle / duration) ease.

(** An overshooting easing in common use: cubic-bezier(0.34, 1.56, 0.64, 1). *)
Definition easeOutBack : EaseSpec :=
  cubicBezierSpec (34 # 100) (156 # 100) (64 # 100) 1.

(** ** Strings *)

Definition str : Type := list ascii.

(** A string literal of the source. *)
Definition js (s : string) : str := list_ascii_of_string s.

Definition code (c : ascii) : N := N_of_ascii c.

Definition between (lo hi : N) (c : ascii) : bool :=
  ((lo <=? code c) && (code c <=? hi))%N.

(** [\d] *)
Definition is_digit (c : ascii) : bool := between 48 57 c.

(** [\s], and the characters [trim] removes: tab, line feed, vertical tab,
    form feed, carriage return, space, no-break space. *)
Definition is_space (c : ascii) : bool :=
  between 9 13 c || (code c =? 32)%N || (code c =? 160)%N.

Definition backslash : ascii := ascii_of_N 92.

Fixpoint str_eqb (a b : str) {struct a} : bool :=
  match a, b with
  | [], [] => true
  | c :: a', d :: b' => Ascii.eqb c d && str_eqb a' b'
  | _, _ => false
  end.

(** [s.startsWith(p)] *)
Fixpoint startsWith (s p : str) {struct p} : bool :=
  match p, s with
  | [], _ => true
  | c :: p', d :: s' => Ascii.eqb c d && startsWith s' p'
  | _ :: _, [] => false
  end.

(** [s.slice(n)] for [0 <= n] *)
Definition slice (n : nat) (s : str) : str := skipn n s.

(** [s.slice(i, j)] for [0 <= i <= j] *)
Definition slice2 (i j : nat) (s : str) : str := firstn (j - i) (skipn i s).

(** [s.replace(/\s+/g, '')]: every run of white space is deleted. *)
Definition strip_spaces (s : str) : str :=
  filter (fun c => negb (is_space c)) s.

Fixpoint trim_start (s : str) : str :=
  match s with
  | c :: s' => if is_space c then trim_start s' else s
  | [] => []
  end.

(** [s.trim()] *)
Definition trim (s : str) : str := rev (trim_start (rev (trim_start s))).

(** One code unit of [toLowerCase]: A-Z and the accented capitals of
    Latin-1 move up by 32. *)
Definition is_upper (c : ascii) : bool :=
  between 65 90 c || between 192 214 c || between 216 222 c.

Definition lower_char (c : ascii) : ascii :=
  if is_upper c then ascii_of_N (code c + 32) else c.

(** [s.toLowerCase()] *)
Definition toLowerCase (s : str) : str := map lower_char s.

(** ** Numbers read from strings *)

Inductive number : Type :=
| Num (q : Q)
| NaN.

Definition digit_val (c : ascii) : Z := Z.of_N (code c) - 48.

(** Value of a run of decimal digits. *)
Definition digits_val (ds : str) : Z :=
  fold_left (fun acc c => 10 * acc + digit_val c)%Z ds 0%Z.

(** Longest prefix satisfying [p], and the rest. *)
Fixpoint span (p : ascii -> bool) (s : str) : str * str :=
  match s with
  | c :: s' =>
      if p c then let (a, b) := span p s' in (c :: a, b) else ([], s)
  | [] => ([], [])
  end.

(** Magnitude of an unsigned decimal literal: digits, optionally a point and
    more digits, with at least one digit in all. *)
Definition unsigned_decimal (s : str) : number :=
  let (ip, rest) := span is_digit s in
  match rest with
  | [] =>
      match ip with [] => NaN | _ => Num (inject_Z (digits_val ip)) end
  | c :: rest' =>
      if Ascii.eqb c "."%char then
        let (fp, tl) := span is_digit rest' in
        match tl, ip ++ fp with
        | [], _ :: _ =>
            Num (inject_Z (digits_val ip)
                 + inject_Z (digits_val fp)
                   / inject_Z (10 ^ Z.of_nat (List.length fp)))
        | _, _ => NaN
        end
      else NaN
  end.

Definition neg_number (x : number) : number :=
  match x with Num q => Num (- q) | NaN => NaN end.

(** [Number(s)] on the strings the sources pass to it: white space is
    trimmed, the empty string is 0, a signed decimal literal has its value,
    anything else is not a number.  (Exponents, radix prefixes and
    [Infinity] are left out: no caller can supply them, since every argument
    is either a match of [[+-]\d+(\.\d+)?] or begins with a backslash.) *)
Definition Number (s : str) : number :=
  match trim s with
  | [] => Num 0
  | c :: s' =>
      if Ascii.eqb c "+"%char then unsigned_decimal s'
      else if Ascii.eqb c "-"%char then neg_number (unsigned_decimal s')
      else unsigned_decimal (c :: s')
  end.

Definition hex_val (c : ascii) : option Z :=
  if between 48 57 c then Some (Z.of_N (code c) - 48)%Z
  else if between 97 102 c then Some (Z.of_N (code c) - 87)%Z
  else if between 65 70 c then Some (Z.of_N (code c) - 55)%Z
  else None.

Definition is_hex (c : ascii) : bool :=
  match hex_val c with Some _ => true | None => false end.

Definition hex_digits_val (ds : str) : Z :=
  fold_left (fun acc c =>
               16 * acc + match hex_val c with Some v => v | None => 0 end)%Z
            ds 0%Z.

Definition strip_0x (s : str) : str :=
  match s with
  | z :: x :: s' =>
      if Ascii.eqb z "0"%char
         && (Ascii.eqb x "x"%char || Ascii.eqb x "X"%char)
      then s' else s
  | _ => s
  end.

(** [parseInt(s, 16)]: leading white space, a sign, an optional [0x], then
    the longest run of hexadecimal digits; not a number when that run is
    empty. *)
Definition parseInt16 (s : str) : number :=
  let s1 := trim_start s in
  let (neg, s2) :=
    match s1 with
    | c :: s' =>
        if Ascii.eqb c "-"%char then (true, s')
        else if Ascii.eqb c "+"%char then (false, s')
        else (false, s1)
    | [] => (false, s1)
    end in
  let (ds, _) := span is_hex (strip_0x s2) in
  match ds with
  | [] => NaN
  | _ => let v := inject_Z (hex_digits_val ds) in
         Num (if neg then - v else v)
  end.

(** ** Regular expressions

    A backtracking matcher for the fragment the sources use: single
    characters and classes, greedy [*] and [+] over them, sequence, a greedy
    optional part and numbered capture groups. *)

Inductive atom : Type :=
| Lit (c : ascii)
| Digit
| Space
| AnyOf (cs : list ascii).

Definition atom_ok (a : atom) (c : ascii) : bool :=
  match a with
  | Lit d => Ascii.eqb d c
  | Digit => is_digit c
  | Space => is_space c
  | AnyOf cs => existsb (Ascii.eqb c) cs
  end.

Inductive regex : Type :=
| One (a : atom)
| Star (a : atom)
| Plus (a : atom)
| Seq (r1 r2 : regex)
| Opt (r : regex)
| Group (n : nat) (r : regex).

(** Capture groups, most recent binding first. *)
Definition captures : Type := list (nat * str).

Fixpoint capture (n : nat) (m : captures) : option str :=
  match m with
  | (k, s) :: m' => if Nat.eqb k n then Some s else capture n m'
  | [] => None
  end.

Definition orelse {A} (x y : option A) : option A :=
  match x with Some _ => x | None => y end.

(** Greedy repetition of one atom, then the continuation [k]; a shorter
    repetition is tried when [k] fails. *)
Fixpoint star (a : atom) (k : str -> option captures) (s : str)
  : option captures :=
  match s with
  | c :: s' => if atom_ok a c then orelse (star a k s') (k s) else k s
  | [] => k []
  end.

Fixpoint run (r : regex) (s : str) (m : captures)
    (k : str -> captures -> option captures) : option captures :=
  match r with
  | One a =>
      match s with
      | c :: s' => if atom_ok a c then k s' m else None
      | [] => None
      end
  | Star a => star a (fun s' => k s' m) s
  | Plus a =>
      match s with
      | c :: s' => if atom_ok a c then star a (fun s' => k s' m) s' else None
      | [] => None
      end
  | Seq r1 r2 => run r1 s m (fun s' m' => run r2 s' m' k)
  | Opt r' => orelse (run r' s m k) (k s m)
  | Group n r' =>
      run r' s m
          (fun s' m' => k s' ((n, firstn (List.length s - List.length s') s) :: m'))
  end.

(** [s.match(/^r$/)] *)
Definition match_whole (r : regex) (s : str) : option captures :=
  run r s [] (fun rest m => match rest with [] => Some m | _ => None end).

(** [s.match(/r/)]: the leftmost position at which [r] matches. *)
Fixpoint match_search (r : regex) (s : str) : option captures :=
  match run r s [] (fun _ m => Some m) with
  | Some m => Some m
  | None => match s with _ :: s' => match_search r s' | [] => None end
  end.

(** The atom [a] cannot consume the head of [rest]. *)
Definition stops (a : atom) (rest : str) : Prop :=
  match rest with c :: _ => atom_ok a c = false | [] => True end.

(** A run of literal characters, then [r]. *)
Fixpoint lits (cs : str) (r : regex) : regex :=
  match cs with
  | c :: cs' => Seq (One (Lit c)) (lits cs' r)
  | [] => r
  end.

(** ** Time references (the same text in the flow and renderer modules) *)

(** The pattern [^([+-]\d+(\.\d+)?)$], without its anchors. *)
Definition offset_re : regex :=
  Group 1 (Seq (One (AnyOf ["+"; "-"]%char))
          (Seq (Plus Digit)
               (Opt (Group 2 (Seq (One (Lit "."%char)) (Plus Digit)))))).

Definition add_number (base : Q) (x : number) : number :=
  match x with Num q => Num (base + q) | NaN => NaN end.

(** [parseOffset(base, offset)] *)
Definition parseOffset (base : Q) (offset : str) : number :=
  match offset with
  | [] => Num base
  | _ =>
      match match_whole offset_re offset with
      | None => Num base
      | Some m =>
          match capture 1 m with
          | Some m1 => add_number base (Number m1)
          | None => NaN
          end
      end
  end.

Inductive TimeRef : Type :=
| TimeNum (q : Q)
| TimeStr (s : str).

(** [resolveStart(start, prevEnd)]; [None] is [undefined]. *)
Definition resolveStart (start : option TimeRef) (prevEnd : Q) : number :=
  match start with
  | None => Num 0
  | Some (TimeNum q) => Num q
  | Some (TimeStr st) =>
      let s := strip_spaces st in
      if startsWith s (js "scene") then
        parseOffset 0 (slice (List.length (js "scene")) s)
      else if startsWith s (js "prev.end") then
        parseOffset prevEnd (slice (List.length (js "prev.end")) s)
      else Num 0
  end.

(** The offset grammar as the specification words it: a sign, digits, and
    optionally a point followed by digits. *)
Inductive signed_numeral : str -> Q -> Prop :=
| signed_int (sign : ascii) (ip : str) :
    sign = "+"%char \/ sign = "-"%char ->
    ip <> [] -> forallb is_digit ip = true ->
    signed_numeral (sign :: ip)
      ((if Ascii.eqb sign "-"%char then -1 else 1) * inject_Z (digits_val ip))
| signed_frac (sign : ascii) (ip fp : str) :
    sign = "+"%char \/ sign = "-"%char ->
    ip <> [] -> forallb is_digit ip = true ->
    fp <> [] -> forallb is_digit fp = true ->
    signed_numeral (sign :: ip ++ "."%char :: fp)
      ((if Ascii.eqb sign "-"%char then -1 else 1)
       * (inject_Z (digits_val ip)
          + inject_Z (digits_val fp) / inject_Z (10 ^ Z.of_nat (List.length fp)))).

(** Equality of results up to the value of the rational. *)
Definition number_eq (x y : number) : Prop :=
  match x, y with
  | Num p, Num q => p == q
  | NaN, NaN => True
  | _, _ => False
  end.

(** ** Colour model (renderer module) *)

Inductive error : Type := TypeError.

(** A computation that returns or throws. *)
Inductive result (A : Type) : Type :=
| Ok (a : A)
| Throw (e : error).
Arguments Ok {A} a.
Arguments Throw {A} e.

Definition bind {A B} (x : result A) (f : A -> result B) : result B :=
  match x with Ok a => f a | Throw e => Throw e end.

Notation "x <- c ;; k" := (bind c (fun x => k))
  (at level 61, c at next level, right associativity).

(** The object [{ r, g, b }]. *)
Record rgb : Type := { chan_r : number; chan_g : number; chan_b : number }.

Definition int_rgb (x y z : Z) : rgb :=
  {| chan_r := Num (inject_Z x); chan_g := Num (inject_Z y);
     chan_b := Num (inject_Z z) |}.

(** The object literal [named] of [parseColor]. *)
Definition named : list (str * rgb) :=
  [ (js "red", int_rgb 255 0 0);
    (js "blue", int_rgb 0 0 255);
    (js "green", int_rgb 0 128 0);
    (js "black", int_rgb 0 0 0);
    (js "white", int_rgb 255 255 255);
    (js "yellow", int_rgb 255 255 0);
    (js "cyan", int_rgb 0 255 255);
    (js "magenta", int_rgb 255 0 255);
    (js "gray", int_rgb 128 128 128) ].

(** Property names every object literal inherits from [Object.prototype];
    their values are functions (an object for [__proto__]): truthy, and not
    iterable. *)
Definition Object_prototype_keys : list str :=
  map js [ "constructor"; "__proto__"; "hasOwnProperty"; "isPrototypeOf";
           "propertyIsEnumerable"; "toLocaleString"; "toString"; "valueOf";
           "__defineGetter__"; "__defineSetter__"; "__lookupGetter__";
           "__lookupSetter__" ]%string.

Inductive property (A : Type) : Type :=
| Own (a : A)
| Inherited
| Absent.
Arguments Own {A} a.
Arguments Inherited {A}.
Arguments Absent {A}.

Fixpoint own_property {A} (o : list (str * A)) (key : str) : option A :=
  match o with
  | (k, v) :: o' => if str_eqb k key then Some v else own_property o' key
  | [] => None
  end.

(** [o[key]] on an object literal [o]. *)
Definition get_property {A} (o : list (str * A)) (key : str) : property A :=
  match own_property o key with
  | Some v => Own v
  | None =>
      if existsb (fun k => str_eqb k key) Object_prototype_keys
      then Inherited else Absent
  end.

(** The pattern of [parseColor] as the source writes it,
    [/rgb\\((\\d+),\\s*(\\d+),\\s*(\\d+)\\)/]: inside a regular-expression
    literal a doubled backslash is one literal backslash, so the parentheses
    that follow are groups and [d], [s] are plain letters. *)
Definition rgb_re : regex :=
  let bs := One (Lit backslash) in
  let bs_d n := Group n (Seq bs (Plus (Lit "d"%char))) in
  let comma := One (Lit ","%char) in
  lits (js "rgb")
    (Seq bs
      (Group 1
        (Seq (bs_d 2%nat) (Seq comma (Seq bs (Seq (Star (Lit "s"%char))
        (Seq (bs_d 3%nat) (Seq comma (Seq bs (Seq (Star (Lit "s"%char))
        (Seq (bs_d 4%nat) bs))))))))))).

(** [Number(m[i])]; a group that did not take part is [undefined]. *)
Definition Number_group (i : nat) (m : captures) : number :=
  match capture i m with Some s => Number s | None => NaN end.

Definition char_at (i : nat) (s : str) : str := firstn 1 (skipn i s).

(** [parseColor(input)] *)
Definition parseColor (input : str) : result (option rgb) :=
  let s := toLowerCase (trim input) in
  match get_property named s with
  | Own c => Ok (Some c)
  | Inherited => Throw TypeError
  | Absent =>
      let hex := slice 1 s in
      if startsWith s (js "#") && (List.length hex =? 3)%nat then
        Ok (Some {| chan_r := parseInt16 (char_at 0 hex ++ char_at 0 hex);
                    chan_g := parseInt16 (char_at 1 hex ++ char_at 1 hex);
                    chan_b := parseInt16 (char_at 2 hex ++ char_at 2 hex) |})
      else if startsWith s (js "#") && (List.length hex =? 6)%nat then
        Ok (Some {| chan_r := parseInt16 (slice2 0 2 hex);
                    chan_g := parseInt16 (slice2 2 4 hex);
                    chan_b := parseInt16 (slice2 4 6 hex) |})
      else
        match match_search rgb_re s with
        | Some m =>
            Ok (Some {| chan_r := Number_group 1 m;
                        chan_g := Number_group 2 m;
                        chan_b := Number_group 3 m |})
        | None => Ok None
        end
  end.

(** [lerp] on values that may be not-a-number. *)
Definition lerp_number (x y : number) (t : Q) : number :=
  match x, y with
  | Num p, Num q => Num (lerp p q t)
  | _, _ => NaN
  end.

(** [Math.round]: the nearest integer, halves upward; [None] is NaN. *)
Definition Math_round (x : number) : option Z :=
  match x with
  | Num q => Some (Qfloor (q + (1 # 2)))
  | NaN => None
  end.

(** A rounded value inside a template literal: plain decimal digits (the
    exponent notation of integers from 10^21 on is outside the model). *)
Definition show (x : option Z) : str :=
  match x with
  | Some z => js (NilZero.string_of_int (Z.to_int z))
  | None => js "NaN"
  end.

(** [lerpColor(a, b, t)] *)
Definition lerpColor (a b : str) (t : Q) : result str :=
  ca <- parseColor a ;;
  cb <- parseColor b ;;
  match ca, cb with
  | Some ca, Some cb =>
      let r := Math_round (lerp_number ca.(chan_r) cb.(chan_r) t) in
      let g := Math_round (lerp_number ca.(chan_g) cb.(chan_g) t) in
      let bl := Math_round (lerp_number ca.(chan_b) cb.(chan_b) t) in
      Ok (js "rgb(" ++ show r ++ js ", " ++ show g ++ js ", " ++ show bl
          ++ js ")")
  | _, _ => Ok a
  end.

(** The pattern for [rgb(r,g,b)] text as the specification describes it,
    [rgb\((\d+),\s*(\d+),\s*(\d+)\)]; kept only for comparison with
    [rgb_re]. *)
Definition rgb_text_re : regex :=
  let comma := One (Lit ","%char) in
  lits (js "rgb(")
    (Seq (Group 1 (Plus Digit)) (Seq comma (Seq (Star Space)
    (Seq (Group 2 (Plus Digit)) (Seq comma (Seq (Star Space)
    (Seq (Group 3 (Plus Digit)) (One (Lit ")"%char))))))))).

(** The three accepted input forms as the specification words them: a name
    of the palette, [#] followed by three or six hexadecimal digits, or
    [rgb(r,g,b)] text. *)
Definition accepted_form (input : str) : bool :=
  let s := toLowerCase (trim input) in
  existsb (fun kv => str_eqb (fst kv) s) named
  || (startsWith s (js "#")
      && ((List.length (slice 1 s) =? 3)%nat || (List.length (slice 1 s) =? 6)%nat)
      && forallb is_hex (slice 1 s))
  || match match_search rgb_text_re s with Some _ => true | None => false end.

(** Text [rgb(r,g,b)] with white space allowed after the commas. *)
Definition rgb_text (r g b ws1 ws2 : str) : str :=
  js "rgb(" ++ r ++ js "," ++ ws1 ++ g ++ js "," ++ ws2 ++ b ++ js ")".

(** ** Keyframe interpolator (renderer module) *)

Module Keyframe.
(** [{ time, value }] with a numeric value. *)
Record t : Type := make { time : Q; value : Q }.
End Keyframe.

Module Spec.
(** The fields of an animation spec the keyframe functions read; [None]
    is an absent field, and an absent [loop] is [false]. *)
Record t : Type := make {
  loop : bool;
  delay : option Q;
  repeatDelay : option Q;
  ease : option EaseSpec;
  duration : option Q;
  keyframes : option (list Keyframe.t)
}.
End Spec.

(** [x ?? d] *)
Definition nullish {A} (x : option A) (d : A) : A :=
  match x with Some v => v | None => d end.

(** [durationOf(spec)] *)
Definition durationOf (duration : option Q)
    (keyframes : option (list Keyframe.t)) : Q :=
  match keyframes with
  | Some (k :: ks) =>
      let last := List.last (k :: ks) k in
      nullish duration (Keyframe.time last)
  | _ => nullish duration 0
  end.

(** [localTimeForKeyframes(time, spec, start, index, stagger)] *)
Definition localTimeForKeyframes (time : Q) (spec : Spec.t) (start : Q)
    (index stagger : Q) : Q :=
  let delay := nullish (Spec.delay spec) 0 in
  let local := time - start - delay - index * stagger in
  if Qle_bool local 0 then 0
  else
    let duration := durationOf (Spec.duration spec) (Spec.keyframes spec) in
    if Spec.loop spec then
      let cycle := duration + nullish (Spec.repeatDelay spec) 0 in
      let local := if Qltb 0 cycle then Qrem local cycle else local in
      if Qltb duration local then duration
      else if Qltb duration local then duration else local
    else if Qltb duration local then duration else local.

Definition segment : Type := Keyframe.t * Keyframe.t * Q.

(** The [for] loop of [segmentForKeyframes]: the first adjacent pair whose
    second time is not before [local]. *)
Fixpoint segment_loop (local : Q) (keyframes : list Keyframe.t)
  : option segment :=
  match keyframes with
  | a :: ((b :: _) as rest) =>
      if Qle_bool local (Keyframe.time b) then
        let span := Keyframe.time b - Keyframe.time a in
        let t := if Qle_bool span 0 then 1
                 else (local - Keyframe.time a) / span in
        Some (a, b, t)
      else segment_loop local rest
  | _ => None
  end.

(** [segmentForKeyframes(local, keyframes)]; reading [keyframes[0].time] of
    an empty array throws. *)
Definition segmentForKeyframes (local : Q) (keyframes : list Keyframe.t)
  : result segment :=
  match keyframes with
  | [] => Throw TypeError
  | k0 :: _ =>
      if Qle_bool local (Keyframe.time k0) then Ok (k0, k0, 0)
      else
        match segment_loop local keyframes with
        | Some seg => Ok seg
        | None =>
            let last := List.last keyframes k0 in
            Ok (last, last, 1)
        end
  end.

(** [keyframeNumber(time, keyframes, spec, start, index, stagger)] *)
Definition keyframeNumber (time : Q) (keyframes : list Keyframe.t)
    (spec : Spec.t) (start : Q) (index stagger : Q) : result Q :=
  let local := localTimeForKeyframes time spec start index stagger in
  match keyframes with
  | [k] => Ok (Keyframe.value k)
  | _ =>
      seg <- segmentForKeyframes local keyframes ;;
      let '(a, b, t) := seg in
      Ok (lerp (Keyframe.value a) (Keyframe.value b)
               (applyEase t (Spec.ease spec)))
  end.

(** The computation returns a number equal to [v]. *)
Definition returns (x : result Q) (v : Q) : Prop :=
  match x with Ok q => q == v | Throw _ => False end.

(** Keyframe times never decrease along the list. *)
Fixpoint ascending (ks : list Keyframe.t) : Prop :=
  match ks with
  | a :: ((b :: _) as rest) =>
      Keyframe.time a <= Keyframe.time b /\ ascending rest
  | _ => True
  end.

(** Keyframe times increase strictly along the list. *)
Fixpoint strictly_ascending (ks : list Keyframe.t) : Prop :=
  match ks with
  | a :: ((b :: _) as rest) =>
      Keyframe.time a < Keyframe.time b /\ strictly_ascending rest
  | _ => True
  end.

(** No keyframe before position [i] has a time as late as [t]. *)
Definition first_at (ks : list Keyframe.t) (i : nat) (t : Q) : Prop :=
  forall j k, (j < i)%nat -> nth_error ks j = Some k -> Keyframe.time k < t.

(** Keyframes used in the examples. *)
Definition kf (t v : Q) : Keyframe.t := Keyframe.make t v.

Definition plain_spec (ease : option EaseSpec) (ks : list Keyframe.t) : Spec.t :=
  Spec.make false None None ease None (Some ks).

(** ** Flow composer (flow module)

    [ShapeBuilder], its [evaluate] method and [estimateDuration] come from
    the shape module, which is taken as given here. *)

(** [Math.max(a, b)] *)
Definition Math_max (a b : Q) : Q := if Qltb a b then b else a.

Section Flow.
Variables ShapeBuilder ShapeInstance : Type.
Variable estimateDuration : ShapeBuilder -> Q.
Variable evaluate : ShapeBuilder -> Q -> list ShapeInstance.

(** [ShapeBuilder | ShapeBuilder[] | (() => ...)] *)
Inductive ShapeLike : Type :=
| Single (b : ShapeBuilder)
| Many (bs : list ShapeBuilder)
| Thunk (f : unit -> ShapeLike).

(** [durationOfItem(item)] *)
Fixpoint durationOfItem (item : ShapeLike) : Q :=
  match item with
  | Thunk f => durationOfItem (f tt)
  | Many bs =>
      fold_left (fun acc b => Math_max acc (estimateDuration b)) bs 0
  | Single b => estimateDuration b
  end.

(** One turn of the loop of [flattenItems]; for a thunk the source calls
    [flattenItems([built], time, offset)], which is this turn on [built]. *)
Fixpoint flattenItem (item : ShapeLike) (time offset : Q)
  : list ShapeInstance :=
  match item with
  | Thunk f => flattenItem (f tt) time offset
  | Many bs => flat_map (fun b => evaluate b time) bs
  | Single b => evaluate b time
  end.

(** [flattenItems(items, time, offset)] *)
Definition flattenItems (items : list ShapeLike) (time offset : Q)
  : list ShapeInstance :=
  flat_map (fun item => flattenItem item time offset) items.

Record Entry : Type := { offset : Q; item : ShapeLike }.

(** The constructor loop of [SequenceGroup], from a given [cursor]. *)
Fixpoint sequence_entries (cursor : Q) (items : list ShapeLike)
  : list Entry :=
  match items with
  | [] => []
  | it :: rest =>
      {| offset := cursor; item := it |}
      :: sequence_entries (cursor + durationOfItem it) rest
  end.

(** [sequence(...items)]: the entries of the [SequenceGroup]. *)
Definition sequence (items : list ShapeLike) : list Entry :=
  sequence_entries 0 items.

(** What one entry adds to the output at [time]. *)
Definition entry_output (time : Q) (e : Entry) : list ShapeInstance :=
  if Qltb time (offset e) then []
  else flattenItems [item e] (time - offset e) (offset e).

(** [SequenceGroup.evaluate(time)] *)
Definition SequenceGroup_evaluate (entries : list Entry) (time : Q)
  : list ShapeInstance :=
  flat_map (entry_output time) entries.
End Flow.

Arguments Single {ShapeBuilder} b.
Arguments Many {ShapeBuilder} bs.
Arguments Thunk {ShapeBuilder} f.
Arguments offset {ShapeBuilder} e.
Arguments item {ShapeBuilder} e.
Arguments sequence {ShapeBuilder} estimateDuration items.
Arguments sequence_entries {ShapeBuilder} estimateDuration cursor items.
Arguments durationOfItem {ShapeBuilder} estimateDuration item.
Arguments flattenItems {ShapeBuilder ShapeInstance} evaluate items time offset.
Arguments flattenItem {ShapeBuilder ShapeInstance} evaluate item time offset.
Arguments entry_output {ShapeBuilder ShapeInstance} evaluate time e.
Arguments SequenceGroup_evaluate {ShapeBuilder ShapeInstance} evaluate entries time.

(** ** Distortion mapper

    The shape module (the shape builder, its [distort] modifier and its
    [evaluate] method) is not among the sources; only the [Rect] factory and
    the test of [distort] are. *)

Module Vec2.
Record t : Type := make { x : Q; y : Q }.
End Vec2.

(** Equality of points up to the value of the coordinates. *)
Definition vec_eq (p q : Vec2.t) : Prop :=
  Vec2.x p == Vec2.x q /\ Vec2.y p == Vec2.y q.

Module Kind.
Inductive t : Type :=
| circle | rect | ellipse | roundRect | ring | arc | pie | path | bezier
| compound | image | text | custom.
End Kind.

(** Modelled from the spec: the geometry payloads the distortion reads, a
    rectangle or rounded rectangle by its size and a path by its points. *)
Inductive Geom : Type :=
| RectGeom (width height : Q)
| RoundRectGeom (width height radius : Q)
| PathGeom (points : list Vec2.t) (closed : bool).

(** Modelled from the spec: the [corners] argument of [distort], a partial
    map over tl, tr, br, bl. *)
Record Corners : Type := {
  tl : option Vec2.t;
  tr : option Vec2.t;
  br : option Vec2.t;
  bl : option Vec2.t
}.

(** Modelled from the spec: an unspecified corner is the zero vector. *)
Definition corner (c : option Vec2.t) : Vec2.t :=
  nullish c (Vec2.make 0 0).

(** [Math.min(a, b)] *)
Definition Math_min (a b : Q) : Q := if Qltb b a then b else a.

(** Modelled from the spec: step 1 of [distort], the ordered point list of
    the shape; a rectangle gives its corners tl, tr, br, bl around the
    origin. *)
Definition geom_points (geom : Geom) : list Vec2.t :=
  match geom with
  | RectGeom w h | RoundRectGeom w h _ =>
      [ Vec2.make (- (w / 2)) (- (h / 2)); Vec2.make (w / 2) (- (h / 2));
        Vec2.make (w / 2) (h / 2); Vec2.make (- (w / 2)) (h / 2) ]
  | PathGeom points _ => points
  end.

(** Modelled from the spec: step 2 of [distort], the least and greatest of a
    list of coordinates (0 for no coordinate at all). *)
Definition least (qs : list Q) : Q :=
  match qs with q :: qs' => fold_left Math_min qs' q | [] => 0 end.

Definition greatest (qs : list Q) : Q :=
  match qs with q :: qs' => fold_left Math_max qs' q | [] => 0 end.

(** Modelled from the spec: step 3 of [distort], a coordinate normalised to
    the bounding box, 0 on an axis of zero extent. *)
Definition normalize (c lo hi : Q) : Q :=
  if Qeq_bool (hi - lo) 0 then 0 else (c - lo) / (hi - lo).

(** Modelled from the spec: steps 4 and 5 of [distort], the bilinear sum of
    the corner displacements added to the point. *)
Definition distort_point (c : Corners) (minX maxX minY maxY : Q)
    (p : Vec2.t) : Vec2.t :=
  let u := normalize (Vec2.x p) minX maxX in
  let v := normalize (Vec2.y p) minY maxY in
  let wtl := (1 - u) * (1 - v) in
  let wtr := u * (1 - v) in
  let wbr := u * v in
  let wbl := (1 - u) * v in
  let dx := wtl * Vec2.x (corner (tl c)) + wtr * Vec2.x (corner (tr c))
            + wbr * Vec2.x (corner (br c)) + wbl * Vec2.x (corner (bl c)) in
  let dy := wtl * Vec2.y (corner (tl c)) + wtr * Vec2.y (corner (tr c))
            + wbr * Vec2.y (corner (br c)) + wbl * Vec2.y (corner (bl c)) in
  Vec2.make (Vec2.x p + dx) (Vec2.y p + dy).

(** Modelled from the spec: [distort(shape, corners)] on the geometry; the
    result is a path, closed when it comes from a rectangle. *)
Definition distort_geom (c : Corners) (geom : Geom) : Geom :=
  let points := geom_points geom in
  let xs := map Vec2.x points in
  let ys := map Vec2.y points in
  let closed :=
    match geom with
    | RectGeom _ _ | RoundRectGeom _ _ _ => true
    | PathGeom _ closed => closed
    end in
  PathGeom (map (distort_point c (least xs) (greatest xs) (least ys) (greatest ys))
                points)
           closed.

(** Modelled from the spec: the structural modifiers of a shape builder; the
    timing-governed ones do not touch the geometry and are left out. *)
Inductive Modifier : Type :=
| Distort (c : Corners).

(** Modelled from the spec: a leaf shape builder, its base geometry and its
    queue of modifiers. *)
Record ShapeBuilder : Type := {
  base_kind : Kind.t;
  base_geom : Geom;
  modifiers : list Modifier
}.

(** Modelled from the spec: the kind and geometry of a shape instance. *)
Record ShapeInstance : Type := { kind : Kind.t; geom : Geom }.

(** [Rect(width, height)] *)
Definition Rect (width height : Q) : ShapeBuilder :=
  {| base_kind := Kind.rect; base_geom := RectGeom width height;
     modifiers := [] |}.

(** [Polygon(points, closed)] *)
Definition Polygon (points : list Vec2.t) (closed : bool) : ShapeBuilder :=
  {| base_kind := Kind.path; base_geom := PathGeom points closed;
     modifiers := [] |}.

(** Modelled from the spec: the builder method [distort(corners)] queues the
    modifier. *)
Definition distort (c : Corners) (s : ShapeBuilder) : ShapeBuilder :=
  {| base_kind := base_kind s; base_geom := base_geom s;
     modifiers := modifiers s ++ [Distort c] |}.

Definition apply_modifier (i : ShapeInstance) (m : Modifier) : ShapeInstance :=
  match m with
  | Distort c => {| kind := Kind.path; geom := distort_geom c (geom i) |}
  end.

(** Modelled from the spec: [evaluate(time)] of a leaf shape assembles one
    instance, the modifiers applied in order. *)
Definition evaluate_shape (s : ShapeBuilder) (time : Q) : list ShapeInstance :=
  [ fold_left apply_modifier (modifiers s)
      {| kind := base_kind s; geom := base_geom s |} ].

(** Well-formed [rgb(r,g,b)] text: three non-empty runs of decimal digits. *)
Definition is_rgb_text (s : str) : Prop :=
  exists r g b ws1 ws2,
    s = rgb_text r g b ws1 ws2 /\
    (r <> [] /\ g <> [] /\ b <> []) /\
    (forallb is_digit r = true /\ forallb is_digit g = true
     /\ forallb is_digit b = true) /\
    (forallb is_space ws1 = true /\ forallb is_space ws2 = true).

(** * Definitions for the further properties *)

(** The body of [phase] after the local time has been computed. *)
Definition phase_local (local duration : Q) (loop : bool) (repeatDelay : Q)
    (ease : option EaseSpec) : Q :=
  if Qle_bool duration 0 then 1
  else if Qle_bool local 0 then 0
  else if loop then
    let cycle := duration + repeatDelay in
    let inCycle := if Qltb 0 cycle then Qrem local cycle else local in
    if Qltb duration inCycle then 1
    else applyEase (inCycle / duration) ease
  else
    let t := local / duration in
    applyEase (if Qltb 1 t then 1 else t) ease.

(** ** Groups of the flow module *)

(** [boolean | ((time: number) => boolean)] *)
Inductive TriggerPredicate : Type :=
| Static (condition : bool)
| Dynamic (condition : Q -> bool).

Module FlowGroup.
Section FlowGroups.
Variables ShapeBuilder ShapeInstance : Type.
Variable evaluate : ShapeBuilder -> Q -> list ShapeInstance.

(** The class [Group]: its items, its optional resolver and its offset. *)
Record Group : Type := {
  group_items : list (ShapeLike ShapeBuilder);
  group_resolver : option (Q -> bool);
  group_offset : Q
}.

(** [Group.evaluate(time)] *)
Definition Group_evaluate (grp : Group) (time : Q) : list ShapeInstance :=
  match group_resolver grp with
  | Some resolver =>
      if negb (resolver time) then []
      else flattenItems evaluate (group_items grp)
             (time - group_offset grp) (group_offset grp)
  | None =>
      flattenItems evaluate (group_items grp)
        (time - group_offset grp) (group_offset grp)
  end.

(** [parallel(...items)] *)
Definition parallel (items : list (ShapeLike ShapeBuilder)) : Group :=
  {| group_items := items; group_resolver := None; group_offset := 0 |}.

(** [when(condition, ...items)] *)
Definition when (condition : TriggerPredicate)
    (items : list (ShapeLike ShapeBuilder)) : Group :=
  let predicate :=
    match condition with
    | Dynamic f => f
    | Static c => fun _ => c
    end in
  {| group_items := items; group_resolver := Some predicate;
     group_offset := 0 |}.

(** [on(start, ...items)].  A comparison with not-a-number is false, so
    with a start that is not a number the resolver rejects every time and
    the offset is never read. *)
Definition on (start : TimeRef) (items : list (ShapeLike ShapeBuilder))
  : Group :=
  match resolveStart (Some start) 0 with
  | Num resolvedStart =>
      {| group_items := items;
         group_resolver := Some (fun time => Qle_bool resolvedStart time);
         group_offset := resolvedStart |}
  | NaN =>
      {| group_items := items; group_resolver := Some (fun _ => false);
         group_offset := 0 |}
  end.
End FlowGroups.

Arguments group_items {ShapeBuilder} g.
Arguments group_resolver {ShapeBuilder} g.
Arguments group_offset {ShapeBuilder} g.
Arguments Group_evaluate {ShapeBuilder ShapeInstance} evaluate grp time.
Arguments parallel {ShapeBuilder} items.
Arguments when {ShapeBuilder} condition items.
Arguments on {ShapeBuilder} start items.
End FlowGroup.

(** ** Auxiliary notions for the colour properties *)

(** Value of a hexadecimal digit, 0 for any other character. *)
Definition hex_value (c : ascii) : Z :=
  match hex_val c with Some v => v | None => 0%Z end.

(** The text [rgb(r, g, b)] that [lerpColor] builds from three integers. *)
Definition rgb_string (r g b : Z) : str :=
  js "rgb(" ++ show (Some r) ++ js ", " ++ show (Some g) ++ js ", "
  ++ show (Some b) ++ js ")".

(** One channel of [lerpColor]: [Math.round(lerp(x, y, t))] on integers. *)
Definition lerp_channel (x y : Z) (t : Q) : Z :=
  Qfloor (lerp (inject_Z x) (inject_Z y) t + (1 # 2)).

(** ** Timeline (runtime module)

    The object is threaded as a state; every reading of
    [performance.now()] is an argument [clock] of the method that reads it. *)

Module Timeline.
Record t : Type := make {
  start : Q;
  offset : Q;
  playing : bool;
  duration : option Q;
  timeScale : Q
}.

(** [new Timeline()] *)
Definition create (clock : Q) : t :=
  make clock 0 true None 1.

(** [clamp(ms)] *)
Definition clamp (tl : t) (ms : Q) : Q :=
  match duration tl with
  | None => ms
  | Some d => if Qltb ms 0 then 0 else if Qltb d ms then d else ms
  end.

(** [now()] *)
Definition now (tl : t) (clock : Q) : Q :=
  if playing tl then
    clamp tl ((clock - start tl) * timeScale tl + offset tl)
  else clamp tl (offset tl).

(** [reset()] *)
Definition reset (tl : t) (clock : Q) : t :=
  make clock 0 (playing tl) (duration tl) (timeScale tl).

(** [play()] *)
Definition play (tl : t) (clock : Q) : t :=
  if playing tl then tl
  else make clock (offset tl) true (duration tl) (timeScale tl).

(** [pause()]; the clock is read by the call of [now()]. *)
Definition pause (tl : t) (clock : Q) : t :=
  if negb (playing tl) then tl
  else make (start tl) (now tl clock) false (duration tl) (timeScale tl).

(** [seek(ms)]; the clock is read only while playing. *)
Definition seek (tl : t) (ms : Q) (clock : Q) : t :=
  let offset' := clamp tl ms in
  if playing tl then make clock offset' true (duration tl) (timeScale tl)
  else make (start tl) offset' false (duration tl) (timeScale tl).

(** [scrub(ms)]: [seek] reads the clock, then [pause] reads it again. *)
Definition scrub (tl : t) (ms : Q) (clock1 clock2 : Q) : t :=
  pause (seek tl ms clock1) clock2.

(** [setDuration(ms)] *)
Definition setDuration (tl : t) (ms : option Q) : t :=
  make (start tl) (offset tl) (playing tl) ms (timeScale tl).

(** [setTimeScale(value)] *)
Definition setTimeScale (tl : t) (value : Q) : t :=
  make (start tl) (offset tl) (playing tl) (duration tl) value.

(** The duration is absent or not negative. *)
Definition sound (tl : t) : Prop :=
  match duration tl with Some d => 0 <= d | None => True end.
End Timeline.

(** ** Diagnostics store (core module)

    The store is threaded as a state.  A listener is known by its identity;
    the calls made to listeners are recorded, oldest first, in [notified],
    each with the snapshot it received.  [Date.now()] is the argument [now].
    Listeners that call back into the store are outside this model. *)

Module Diagnostics.
Inductive DiagnosticLevel : Type := error | warn.

Record Diagnostic : Type := {
  level : DiagnosticLevel;
  message : str;
  detail : option str;
  time : Q
}.

Definition Listener : Type := nat.

Record Store : Type := {
  items : list Diagnostic;
  listeners : list Listener;
  keys : list str;
  notified : list (Listener * list Diagnostic)
}.

(** The store at construction. *)
Definition empty : Store :=
  {| items := []; listeners := []; keys := []; notified := [] |}.

(** [getAll()] *)
Definition getAll (s : Store) : list Diagnostic := items s.

(** [emit()] *)
Definition emit (s : Store) : Store :=
  {| items := items s; listeners := listeners s; keys := keys s;
     notified := notified s ++ map (fun l => (l, getAll s)) (listeners s) |}.

(** [add(level, message, detail)] *)
Definition add (lv : DiagnosticLevel) (msg : str) (det : option str)
    (now : Q) (s : Store) : Store :=
  emit {| items := items s
                   ++ [ {| level := lv; message := msg; detail := det;
                           time := now |} ];
          listeners := listeners s; keys := keys s;
          notified := notified s |}.

(** [keys.has(key)] *)
Definition has_key (key : str) (s : Store) : bool :=
  existsb (str_eqb key) (keys s).

(** [addOnce(key, level, message, detail)] *)
Definition addOnce (key : str) (lv : DiagnosticLevel) (msg : str)
    (det : option str) (now : Q) (s : Store) : Store :=
  if has_key key s then s
  else add lv msg det now
         {| items := items s; listeners := listeners s;
            keys := key :: keys s; notified := notified s |}.

(** [clear()] *)
Definition clear (s : Store) : Store :=
  emit {| items := []; listeners := listeners s; keys := [];
          notified := notified s |}.

(** [on(listener)]: the listener is added and called at once. *)
Definition on (listener : Listener) (s : Store) : Store :=
  {| items := items s; listeners := listeners s ++ [listener];
     keys := keys s;
     notified := notified s ++ [(listener, getAll s)] |}.

(** The function returned by [on(listener)]. *)
Definition off (listener : Listener) (s : Store) : Store :=
  {| items := items s;
     listeners := filter (fun l => negb (Nat.eqb l listener)) (listeners s);
     keys := keys s; notified := notified s |}.

(** The calls received so far by one listener. *)
Definition calls_to (listener : Listener) (s : Store)
  : list (Listener * list Diagnostic) :=
  filter (fun c => Nat.eqb (fst c) listener) (notified s).
End Diagnostics.

(** ** Shape factories (dsl module) and path helpers (renderer module)

    A factory is modelled by the geometry it hands to the shape builder. *)

(** The geometry of [Ring(outer, inner)]. *)
Record RingGeom : Type := { ring_outer : Q; ring_inner : Q }.

(** [Ring(outer, inner)] *)
Definition Ring (outer inner : Q) : RingGeom :=
  let safeInner := Math_max 0 (Math_min inner outer) in
  {| ring_outer := outer; ring_inner := safeInner |}.

(** The [options] of [Arc]. *)
Record ArcOptions : Type := {
  opt_innerRadius : option Q;
  opt_thickness : option Q;
  opt_counterclockwise : option bool
}.

(** The geometry of [Arc(...)]. *)
Record ArcGeom : Type := {
  arc_radius : Q;
  arc_startAngle : Q;
  arc_endAngle : Q;
  arc_counterclockwise : bool;
  arc_innerRadius : Q
}.

(** [Arc(radius, startAngle, endAngle, options)] *)
Definition Arc (radius startAngle endAngle : Q) (options : ArcOptions)
  : ArcGeom :=
  let ccw := nullish (opt_counterclockwise options) false in
  let innerRadius :=
    match opt_innerRadius options with
    | Some innerRadius => Math_max 0 (Math_min innerRadius radius)
    | None =>
        match opt_thickness options with
        | Some thickness => Math_max 0 (radius - Math_max 0 thickness)
        | None => 0
        end
    end in
  {| arc_radius := radius; arc_startAngle := startAngle;
     arc_endAngle := endAngle; arc_counterclockwise := ccw;
     arc_innerRadius := innerRadius |}.

(** [number | { tl, tr, br, bl }] *)
Inductive Radius : Type :=
| Uniform (radius : Q)
| PerCorner (tl tr br bl : Q).

(** The geometry of a rounded rectangle. *)
Record RoundRectShape : Type := {
  rr_width : Q;
  rr_height : Q;
  rr_radius : Radius
}.

(** [Capsule(width, height)] *)
Definition Capsule (width height : Q) : RoundRectShape :=
  let radius := Math_min width height / 2 in
  {| rr_width := width; rr_height := height; rr_radius := Uniform radius |}.

(** The calls a path builder makes on the drawing context. *)
Inductive PathCall : Type :=
| MoveTo (x y : Q)
| LineTo (x y : Q)
| QuadraticCurveTo (cpx cpy x y : Q)
| ClosePath.

(** [buildRoundRect(ctx, x, y, w, h, radius)]: the calls made on [ctx]. *)
Definition buildRoundRect (x y w h : Q) (radius : Radius) : list PathCall :=
  let '(rtl, rtr, rbr, rbl) :=
    match radius with
    | Uniform r => (r, r, r, r)
    | PerCorner tl tr br bl => (tl, tr, br, bl)
    end in
  let max := Math_min w h / 2 in
  let tl := Math_min (Math_max 0 rtl) max in
  let tr := Math_min (Math_max 0 rtr) max in
  let br := Math_min (Math_max 0 rbr) max in
  let bl := Math_min (Math_max 0 rbl) max in
  [ MoveTo (x + tl) y;
    LineTo (x + w - tr) y;
    QuadraticCurveTo (x + w) y (x + w) (y + tr);
    LineTo (x + w) (y + h - br);
    QuadraticCurveTo (x + w) (y + h) (x + w - br) (y + h);
    LineTo (x + bl) (y + h);
    QuadraticCurveTo x (y + h) x (y + h - bl);
    LineTo x (y + tl);
    QuadraticCurveTo x y (x + tl) y;
    ClosePath ].

(** The points a call names, control points included. *)
Definition call_points (c : PathCall) : list Vec2.t :=
  match c with
  | MoveTo x y | LineTo x y => [Vec2.make x y]
  | QuadraticCurveTo cpx cpy x y => [Vec2.make cpx cpy; Vec2.make x y]
  | ClosePath => []
  end.

(** The point lies in the rectangle with corner [(x, y)] and size [w], [h]. *)
Definition in_box (x y w h : Q) (p : Vec2.t) : Prop :=
  (x <= Vec2.x p /\ Vec2.x p <= x + w) /\
  (y <= Vec2.y p /\ Vec2.y p <= y + h).

Module Tri.
(** ['up' | 'down' | 'left' | 'right'] *)
Inductive TriangleDirection : Type := up | down | left | right.

(** ['topLeft' | 'topRight' | 'bottomLeft' | 'bottomRight'] *)
Inductive RightAngleCorner : Type :=
| topLeft | topRight | bottomLeft | bottomRight.

(** The points of [Triangle(width, height, options)]. *)
Definition points (width height : Q)
    (direction : option TriangleDirection)
    (rightAngle : option RightAngleCorner) : list Vec2.t :=
  let w := width in
  let h := height in
  let dir := nullish direction up in
  match rightAngle with
  | Some topLeft =>
      [ Vec2.make (- w / 2) (- h / 2); Vec2.make (w / 2) (- h / 2);
        Vec2.make (- w / 2) (h / 2) ]
  | Some topRight =>
      [ Vec2.make (- w / 2) (- h / 2); Vec2.make (w / 2) (- h / 2);
        Vec2.make (w / 2) (h / 2) ]
  | Some bottomLeft =>
      [ Vec2.make (- w / 2) (- h / 2); Vec2.make (w / 2) (h / 2);
        Vec2.make (- w / 2) (h / 2) ]
  | Some bottomRight =>
      [ Vec2.make (- w / 2) (h / 2); Vec2.make (w / 2) (h / 2);
        Vec2.make (w / 2) (- h / 2) ]
  | None =>
      match dir with
      | down =>
          [ Vec2.make (- w / 2) (- h / 2); Vec2.make (w / 2) (- h / 2);
            Vec2.make 0 (h / 2) ]
      | left =>
          [ Vec2.make (w / 2) (- h / 2); Vec2.make (w / 2) (h / 2);
            Vec2.make (- w / 2) 0 ]
      | right =>
          [ Vec2.make (- w / 2) (- h / 2); Vec2.make (- w / 2) (h / 2);
            Vec2.make (w / 2) 0 ]
      | up =>
          [ Vec2.make (- w / 2) (h / 2); Vec2.make 0 (- h / 2);
            Vec2.make (w / 2) (h / 2) ]
      end
  end.

(** [Triangle(width, height, options)]: a closed path. *)
Definition Triangle (width height : Q) (direction : option TriangleDirection)
    (rightAngle : option RightAngleCorner) : ShapeBuilder :=
  {| base_kind := Kind.path;
     base_geom := PathGeom (points width height direction rightAngle) true;
     modifiers := [] |}.
End Tri.

Module Bounds.
(** A running least or greatest value; [None] is the infinity the source
    starts from. *)
Definition below (v : Q) (least : option Q) : bool :=
  match least with None => true | Some m => Qltb v m end.

Definition above (v : Q) (greatest : option Q) : bool :=
  match greatest with None => true | Some m => Qltb m v end.

Record Extent : Type := {
  minX : option Q; minY : option Q; maxX : option Q; maxY : option Q
}.

(** One turn of the loop of [pathBounds]. *)
Definition extend (e : Extent) (p : Vec2.t) : Extent :=
  {| minX := if below (Vec2.x p) (minX e) then Some (Vec2.x p) else minX e;
     minY := if below (Vec2.y p) (minY e) then Some (Vec2.y p) else minY e;
     maxX := if above (Vec2.x p) (maxX e) then Some (Vec2.x p) else maxX e;
     maxY := if above (Vec2.y p) (maxY e) then Some (Vec2.y p) else maxY e |}.

Record Size : Type := { size_w : Q; size_h : Q }.

(** [pathBounds(points)].  For an empty array the source returns
    [-Infinity] for both sizes; this is [None]. *)
Definition pathBounds (points : list Vec2.t) : option Size :=
  let e := fold_left extend points
             {| minX := None; minY := None; maxX := None; maxY := None |} in
  match minX e, minY e, maxX e, maxY e with
  | Some x0, Some y0, Some x1, Some y1 =>
      Some {| size_w := x1 - x0; size_h := y1 - y0 |}
  | _, _, _, _ => None
  end.
End Bounds.

(** [m] is the least value of [f] over the points, reached at one of
    them. *)
Definition least_of (m : option Q) (f : Vec2.t -> Q) (pts : list Vec2.t)
  : Prop :=
  exists b, In b pts /\ m = Some (f b) /\ forall q, In q pts -> f b <= f q.

(** [m] is the greatest value of [f] over the points, reached at one of
    them. *)
Definition greatest_of (m : option Q) (f : Vec2.t -> Q) (pts : list Vec2.t)
  : Prop :=
  exists a, In a pts /\ m = Some (f a) /\ forall q, In q pts -> f q <= f a.

(** ** Flattening a Bezier path (renderer module) *)

Module Bezier.
(** The commands of a Bezier path, by their [cmd] tag. *)
Inductive BezierCommand : Type :=
| moveTo (x y : Q)
| lineTo (x y : Q)
| quadTo (cpx cpy x y : Q)
| cubicTo (cp1x cp1y cp2x cp2y x y : Q)
| close.

(** The variables of the loop: the points pushed so far and the pen. *)
Record State : Type := { points : list Vec2.t; pen_x : Q; pen_y : Q }.

(** The samples [i = 1 .. steps] of a curve, [t = i / steps]. *)
Definition samples (steps : nat) (at_t : Q -> Vec2.t) : list Vec2.t :=
  map (fun i => at_t (inject_Z (Z.of_nat i) / inject_Z (Z.of_nat steps)))
      (seq 1 steps).

(** One turn of the loop of [bezierToPoints]. *)
Definition step (s : State) (c : BezierCommand) : State :=
  let x := pen_x s in
  let y := pen_y s in
  match c with
  | moveTo cx cy | lineTo cx cy =>
      {| points := points s ++ [Vec2.make cx cy]; pen_x := cx; pen_y := cy |}
  | quadTo cpx cpy cx cy =>
      let at_t t :=
        let inv := 1 - t in
        Vec2.make (inv * inv * x + 2 * inv * t * cpx + t * t * cx)
                  (inv * inv * y + 2 * inv * t * cpy + t * t * cy) in
      {| points := points s ++ samples 20 at_t; pen_x := cx; pen_y := cy |}
  | cubicTo cp1x cp1y cp2x cp2y cx cy =>
      let at_t t :=
        let inv := 1 - t in
        Vec2.make (inv * inv * inv * x + 3 * inv * inv * t * cp1x
                   + 3 * inv * t * t * cp2x + t * t * t * cx)
                  (inv * inv * inv * y + 3 * inv * inv * t * cp1y
                   + 3 * inv * t * t * cp2y + t * t * t * cy) in
      {| points := points s ++ samples 30 at_t; pen_x := cx; pen_y := cy |}
  | close =>
      match points s with
      | first :: _ =>
          {| points := points s ++ [Vec2.make (Vec2.x first) (Vec2.y first)];
             pen_x := x; pen_y := y |}
      | [] => s
      end
  end.

Definition run (commands : list BezierCommand) : State :=
  fold_left step commands {| points := []; pen_x := 0; pen_y := 0 |}.

(** [bezierToPoints(commands)] *)
Definition bezierToPoints (commands : list BezierCommand) : list Vec2.t :=
  points (run commands).

(** The end point of a command that has one. *)
Definition target (c : BezierCommand) : option Vec2.t :=
  match c with
  | moveTo x y | lineTo x y | quadTo _ _ x y | cubicTo _ _ _ _ x y =>
      Some (Vec2.make x y)
  | close => None
  end.

(** How many points a command adds when some are already there. *)
Definition added (c : BezierCommand) : nat :=
  match c with
  | moveTo _ _ | lineTo _ _ => 1
  | quadTo _ _ _ _ => 20
  | cubicTo _ _ _ _ _ _ => 30
  | close => 1
  end.
End Bezier.

(** ** Evaluating an animation spec (renderer module) *)

Module Anim.
(** The fields of the animation specs ([OpacityAnimSpec], [TrimAnimSpec]);
    [None] is an absent field. *)
Record t : Type := make {
  from : Q;
  to : Q;
  duration : option Q;
  loop : option bool;
  start : option TimeRef;
  delay : option Q;
  repeatDelay : option Q;
  ease : option EaseSpec;
  stagger : option Q;
  keyframes : option (list Keyframe.t);
  steps : option Q
}.
End Anim.

(** [phase] called with the result of [resolveStart].  With a start that is
    not a number the local time is not a number either; every test on it is
    false, so the progress is not a number unless the duration test has
    returned 1 first. *)
Definition phase_from (time duration : Q) (loop : bool) (start : number)
    (delay repeatDelay : Q) (ease : option EaseSpec) (stagger index : Q)
  : number :=
  match start with
  | Num s =>
      Num (phase time duration loop s delay repeatDelay ease stagger index)
  | NaN => if Qle_bool duration 0 then Num 1 else NaN
  end.

(** [keyframeNumber] called with the result of [resolveStart].  With a
    start that is not a number no comparison of the local time succeeds:
    the lookup runs off the end of the list and settles on the last
    keyframe. *)
Definition keyframeNumber_from (time : Q) (keyframes : list Keyframe.t)
    (spec : Spec.t) (start : number) (index stagger : Q) : result Q :=
  match start with
  | Num s => keyframeNumber time keyframes spec s index stagger
  | NaN =>
      match keyframes with
      | [k] => Ok (Keyframe.value k)
      | [] => Throw TypeError
      | k0 :: _ =>
          let last := List.last keyframes k0 in
          Ok (lerp (Keyframe.value last) (Keyframe.value last)
                   (applyEase 1 (Spec.ease spec)))
      end
  end.

(** [lerp(a, b, t)] with a progress that may be not-a-number. *)
Definition lerp_at (a b : Q) (t : number) : number :=
  match t with Num q => Num (lerp a b q) | NaN => NaN end.

(** The spec as the keyframe functions read it. *)
Definition keyframe_spec (spec : Anim.t) : Spec.t :=
  Spec.make (nullish (Anim.loop spec) false) (Anim.delay spec)
            (Anim.repeatDelay spec) (Anim.ease spec) (Anim.duration spec)
            (Anim.keyframes spec).

(** [evalOpacity(spec, time, index)] *)
Definition evalOpacity (spec : Anim.t) (time index : Q) : result number :=
  let start := resolveStart (Anim.start spec) 0 in
  match Anim.keyframes spec with
  | Some (k :: ks) =>
      v <- keyframeNumber_from time (k :: ks) (keyframe_spec spec) start index
             (nullish (Anim.stagger spec) 0) ;;
      Ok (Num v)
  | _ =>
      let t := phase_from time
                 (durationOf (Anim.duration spec) (Anim.keyframes spec))
                 (nullish (Anim.loop spec) false) start
                 (nullish (Anim.delay spec) 0)
                 (nullish (Anim.repeatDelay spec) 0) (Anim.ease spec)
                 (nullish (Anim.stagger spec) 0) index in
      Ok (lerp_at (Anim.from spec) (Anim.to spec) t)
  end.

(** The stepping of [evalTrim] on a progress [t]. *)
Definition trim_steps (steps : Q) (t : number) : number :=
  match t with
  | Num t =>
      let buckets := steps + 1 in
      let index := inject_Z (Qfloor (t * buckets)) in
      let clamped := if Qltb steps index then steps else index in
      Num (if Qeq_bool steps 0 then 1 else (steps - clamped) / steps)
  | NaN => NaN
  end.

(** [evalTrim(spec, time)]; a trim spec has no keyframes. *)
Definition evalTrim (spec : Anim.t) (time : Q) : number :=
  let t := phase_from time (durationOf (Anim.duration spec) None)
             (nullish (Anim.loop spec) false)
             (resolveStart (Anim.start spec) 0)
             (nullish (Anim.delay spec) 0)
             (nullish (Anim.repeatDelay spec) 0) (Anim.ease spec) 0 0 in
  let t :=
    match Anim.steps spec with
    | Some steps =>
        if negb (Qeq_bool steps 0) && Qltb 1 steps then trim_steps steps t
        else t
    | None => t
    end in
  lerp_at (Anim.from spec) (Anim.to spec) t.

(** The computation returns a number equal to [v]. *)
Definition yields (x : number) (v : Q) : Prop :=
  match x with Num q => q == v | NaN => False end.

(** The computation does not throw and returns a number equal to [v]. *)
Definition yields_ok (x : result number) (v : Q) : Prop :=
  match x with Ok n => yields n v | Throw _ => False end.
(** ** Boolean tests and the order on [Q] *)

Lemma Qltb_lt (a b : Q) : Qltb a b = true <-> a < b.
Proof.
  unfold Qltb. rewrite negb_true_iff.
  split; intro H.
  - apply Qnot_le_lt. intro Hle. apply Qle_bool_iff in Hle. congruence.
  - destruct (Qle_bool b a) eqn:E; [|reflexivity].
    apply Qle_bool_iff in E. exfalso. apply (Qlt_not_le _ _ H E).
Qed.

Lemma Qltb_ge (a b : Q) : Qltb a b = false <-> b <= a.
Proof.
  unfold Qltb. rewrite negb_false_iff. apply Qle_bool_iff.
Qed.

Lemma Qle_bool_gt (a b : Q) : Qle_bool a b = false <-> b < a.
Proof.
  rewrite <- Qltb_lt. unfold Qltb. rewrite negb_true_iff. tauto.
Qed.

Ltac qcases :=
  repeat match goal with
  | |- context [Qle_bool ?a ?b] =>
      let E := fresh "E" in
      destruct (Qle_bool a b) eqn:E;
      [apply Qle_bool_iff in E | apply Qle_bool_gt in E]
  | |- context [Qltb ?a ?b] =>
      let E := fresh "E" in
      destruct (Qltb a b) eqn:E;
      [apply Qltb_lt in E | apply Qltb_ge in E]
  end.

(** ** Phase before the start *)

Lemma phase_not_started time duration loop start delay repeatDelay ease
    stagger index :
  0 < duration ->
  time - start - delay - index * stagger <= 0 ->
  phase time duration loop start delay repeatDelay ease stagger index = 0.
Proof.
  intros Hd Hl. unfold phase.
  apply Qle_bool_gt in Hd. rewrite Hd.
  apply Qle_bool_iff in Hl. rewrite Hl. reflexivity.
Qed.

Lemma phase_instantaneous time duration loop start delay repeatDelay ease
    stagger index :
  duration <= 0 ->
  phase time duration loop start delay repeatDelay ease stagger index = 1.
Proof.
  intros Hd. unfold phase. apply Qle_bool_iff in Hd. now rewrite Hd.
Qed.

(** ** Monotonicity of the easings on the unit interval *)

Lemma Qsquare_nonneg (a : Q) : 0 <= a * a.
Proof.
  destruct (Qlt_le_dec a 0) as [H|H].
  - setoid_replace (a * a) with ((- a) * (- a)) by ring.
    apply Qmult_le_0_compat; lra.
  - apply Qmult_le_0_compat; assumption.
Qed.

Lemma cubicBezier_mono x1 y1 x2 y2 s t :
  0 <= y1 <= 1 -> 0 <= y2 <= 1 -> 0 <= s -> s <= t -> t <= 1 ->
  cubicBezier x1 y1 x2 y2 s <= cubicBezier x1 y1 x2 y2 t.
Proof.
  intros [Ha1 Hb1] [Ha2 Hb2] Hs Hst Ht. unfold cubicBezier.
  (* the four corners of the control square *)
  assert (Hts : 0 <= t - s) by lra.
  assert (Pss : 0 <= s * s) by (apply Qmult_le_0_compat; lra).
  assert (Pst : 0 <= s * t) by (apply Qmult_le_0_compat; lra).
  assert (Ptt : 0 <= t * t) by (apply Qmult_le_0_compat; lra).
  assert (Ps1 : 0 <= s * (1 - s)) by (apply Qmult_le_0_compat; lra).
  assert (Pt1 : 0 <= t * (1 - t)) by (apply Qmult_le_0_compat; lra).
  assert (Ps2 : 0 <= s * (1 - t)) by (apply Qmult_le_0_compat; lra).
  assert (Pt2 : 0 <= t * (1 - s)) by (apply Qmult_le_0_compat; lra).
  assert (Pu1 : 0 <= (1 - s) * (1 - s)) by (apply Qmult_le_0_compat; lra).
  assert (Pu2 : 0 <= (1 - s) * (1 - t)) by (apply Qmult_le_0_compat; lra).
  assert (Pu3 : 0 <= (1 - t) * (1 - t)) by (apply Qmult_le_0_compat; lra).
  assert (Sq1 : 0 <= (1 - s - t) * (1 - s - t)) by apply Qsquare_nonneg.
  assert (Sq2 : 0 <= (s - t) * (s - t)) by apply Qsquare_nonneg.
  assert (D00 : 0 <= t * t * t - s * s * s).
  { assert (0 <= (t - s) * (t * t + s * t + s * s))
      by (apply Qmult_le_0_compat; lra).
    lra. }
  assert (D11 : 0 <= (1 - s) * (1 - s) * (1 - s) - (1 - t) * (1 - t) * (1 - t)).
  { assert (0 <= (t - s) * ((1 - s) * (1 - s) + (1 - s) * (1 - t)
                            + (1 - t) * (1 - t)))
      by (apply Qmult_le_0_compat; lra).
    lra. }
  assert (D01 : 0 <= (3 * t * t - 2 * t * t * t) - (3 * s * s - 2 * s * s * s)).
  { assert (0 <= (t - s) * (3 * (s + t) - 2 * (s * s + s * t + t * t)))
      by (apply Qmult_le_0_compat; lra).
    lra. }
  assert (D10 : 0 <= (3 * (1 - t) * (1 - t) * t + t * t * t)
                     - (3 * (1 - s) * (1 - s) * s + s * s * s)).
  { assert (0 <= (t - s) * (3 * ((1 - s - t) * (1 - s - t))
                            + (s - t) * (s - t)))
      by (apply Qmult_le_0_compat; lra).
    lra. }
  assert (W00 : 0 <= (1 - y1) * (1 - y2)) by (apply Qmult_le_0_compat; lra).
  assert (W10 : 0 <= y1 * (1 - y2)) by (apply Qmult_le_0_compat; lra).
  assert (W01 : 0 <= (1 - y1) * y2) by (apply Qmult_le_0_compat; lra).
  assert (W11 : 0 <= y1 * y2) by (apply Qmult_le_0_compat; lra).
  pose proof (Qmult_le_0_compat _ _ W00 D00).
  pose proof (Qmult_le_0_compat _ _ W10 D10).
  pose proof (Qmult_le_0_compat _ _ W01 D01).
  pose proof (Qmult_le_0_compat _ _ W11 D11).
  lra.
Qed.

Lemma Qsquare_le (a b : Q) : 0 <= a -> a <= b -> a * a <= b * b.
Proof.
  intros Ha Hab.
  assert (0 <= (b - a) * (b + a)) by (apply Qmult_le_0_compat; lra).
  lra.
Qed.

Lemma Qdiv2 (x : Q) : x / 2 == x * (1 # 2).
Proof. field. Qed.

Lemma applyEase_mono ease s t :
  unit_ease ease -> 0 <= s -> s <= t -> t <= 1 ->
  applyEase s ease <= applyEase t ease.
Proof.
  intros Hu Hs Hst Ht.
  destruct ease as [[| | | |x1 y1 x2 y2]|]; simpl; try assumption.
  - now apply Qsquare_le.
  - assert ((1 - t) * (1 - t) <= (1 - s) * (1 - s)) by (apply Qsquare_le; lra).
    lra.
  - clear Hu. pose proof (Qsquare_le s t Hs Hst) as Hsq.
    qcases; rewrite ?Qdiv2.
    + lra.
    + assert (H1 : s * s <= (1 # 2) * (1 # 2)) by (apply Qsquare_le; lra).
      assert (H2 : (-2 * t + 2) * (-2 * t + 2) <= 1 * 1)
        by (apply Qsquare_le; lra).
      lra.
    + lra.
    + assert (H2 : (-2 * t + 2) * (-2 * t + 2) <= (-2 * s + 2) * (-2 * s + 2))
        by (apply Qsquare_le; lra).
      lra.
  - destruct Hu. now apply cubicBezier_mono.
Qed.

Lemma applyEase_zero ease : unit_ease ease -> applyEase 0 ease == 0.
Proof.
  destruct ease as [[| | | |x1 y1 x2 y2]|]; simpl; intros _;
    unfold cubicBezier; try reflexivity; ring.
Qed.

Lemma applyEase_one ease : applyEase 1 ease == 1.
Proof.
  destruct ease as [[| | | |x1 y1 x2 y2]|]; simpl;
    unfold cubicBezier; try reflexivity; ring.
Qed.

Lemma applyEase_nonneg ease t :
  unit_ease ease -> 0 <= t -> t <= 1 -> 0 <= applyEase t ease.
Proof.
  intros Hu H0 H1.
  rewrite <- (applyEase_zero ease Hu).
  apply applyEase_mono; auto. lra.
Qed.

Lemma Qdiv_le_mono (a b d : Q) : 0 < d -> a <= b -> a / d <= b / d.
Proof.
  intros Hd Hab. apply Qle_shift_div_l; [assumption|].
  setoid_replace (a / d * d) with a by (field; lra). assumption.
Qed.

Lemma Qdiv_pos (a d : Q) : 0 < d -> 0 < a -> 0 < a / d.
Proof.
  intros Hd Ha. apply Qlt_shift_div_l; [assumption|]. lra.
Qed.

(** ** The remainder stays inside the cycle *)

Lemma Qtrunc_floor (q : Q) : 0 <= q -> Qtrunc q = Qfloor q.
Proof.
  destruct q as [n d]. unfold Qle, Qtrunc, Qfloor. simpl. intros H.
  apply Z.quot_div_nonneg; lia.
Qed.

Lemma Qrem_bounds (a b : Q) : 0 <= a -> 0 < b -> 0 <= Qrem a b /\ Qrem a b < b.
Proof.
  intros Ha Hb. unfold Qrem.
  assert (Hq : 0 <= a / b) by (apply Qle_shift_div_l; lra).
  rewrite (Qtrunc_floor _ Hq).
  pose proof (Qfloor_le (a / b)) as Hlo.
  pose proof (Qlt_floor (a / b)) as Hhi.
  rewrite inject_Z_plus in Hhi.
  set (f := inject_Z (Qfloor (a / b))) in *.
  assert (Hab : a == b * (a / b)) by (field; lra).
  assert (H1 : 0 <= b * (a / b - f)) by (apply Qmult_le_0_compat; lra).
  assert (H2 : 0 < b * (f + inject_Z 1 - a / b))
    by (apply Qmult_lt_0_compat; lra).
  change (inject_Z 1) with 1 in H2.
  split; lra.
Qed.

(** ** Claims on [phase] *)

(** C1 (as amended).  With a positive [duration], [phase] is 0 at every time
    before [start + delay] (index and stagger 0), whatever [loop],
    [repeatDelay] and [ease] are; with [duration <= 0] the duration test runs
    first and [phase] is 1 at every time. *)
Theorem phase_before_start time duration loop start delay repeatDelay ease :
  time < start + delay ->
  (0 < duration ->
   phase time duration loop start delay repeatDelay ease 0 0 = 0) /\
  (duration <= 0 ->
   phase time duration loop start delay repeatDelay ease 0 0 = 1).
Proof.
  intros Ht. split; intros Hd.
  - apply phase_not_started; [assumption | lra].
  - now apply phase_instantaneous.
Qed.

Lemma phase_before_start_witness :
  phase 5 100 true 10 20 0 (Some easeIn) 0 0 = 0 /\
  phase 5 0 true 10 20 0 (Some easeIn) 0 0 = 1.
Proof.
  split.
  - apply (phase_before_start 5 100 true 10 20 0 (Some easeIn));
      reflexivity.
  - apply (phase_before_start 5 0 true 10 20 0 (Some easeIn));
      [reflexivity | discriminate].
Defined.

(** C1 as stated fails: at time 0, before [start + delay = 10], a spec of
    duration 0 already has phase 1. *)
Lemma phase_before_start_counterexample :
  0 < 10 + 0 /\ ~ phase 0 0 false 10 0 0 None 0 0 == 0.
Proof.
  split; [reflexivity | discriminate].
Qed.

(** C5 (as amended).  Past the start of a looping spec the cycle is
    [duration + repeatDelay].  A positive cycle wraps the local time into
    [0, cycle); the repeat gap beyond [duration] holds 1 and the rest is
    [ease (inCycle / duration)].  A cycle that is zero or negative is not
    replaced by [duration]: the local time is not wrapped and the looping
    phase equals the non-looping one. *)
Theorem phase_loop_cycle time duration start delay repeatDelay ease
    stagger index :
  let local := time - start - delay - index * stagger in
  let cycle := duration + repeatDelay in
  0 < duration -> 0 < local ->
  (0 < cycle ->
   (0 <= Qrem local cycle /\ Qrem local cycle < cycle) /\
   phase time duration true start delay repeatDelay ease stagger index
   = if Qltb duration (Qrem local cycle) then 1
     else applyEase (Qrem local cycle / duration) ease) /\
  (cycle <= 0 ->
   phase time duration true start delay repeatDelay ease stagger index
   == phase time duration false start delay repeatDelay ease stagger index).
Proof.
  intros local cycle Hd Hl. unfold phase. fold local. fold cycle.
  apply Qle_bool_gt in Hd. rewrite Hd. apply Qle_bool_gt in Hd.
  apply Qle_bool_gt in Hl. rewrite Hl. apply Qle_bool_gt in Hl.
  split; intros Hc.
  - split; [apply Qrem_bounds; lra|].
    apply Qltb_lt in Hc. now rewrite Hc.
  - apply Qltb_ge in Hc. rewrite Hc.
    assert (Hone : local / duration * duration == local) by (field; lra).
    destruct (Qltb duration local) eqn:E1;
      destruct (Qltb 1 (local / duration)) eqn:E2;
      try apply Qltb_lt in E1; try apply Qltb_ge in E1;
      try apply Qltb_lt in E2; try apply Qltb_ge in E2.
    + symmetry. apply applyEase_one.
    + exfalso.
      assert (local / duration * duration <= 1 * duration)
        by (apply Qmult_le_compat_r; lra).
      lra.
    + exfalso.
      assert (1 * duration < local / duration * duration)
        by (apply Qmult_lt_compat_r; lra).
      lra.
    + reflexivity.
Qed.

Lemma phase_loop_cycle_witness :
  phase 250 100 true 0 0 50 None 0 0
  = (if Qltb 100 (Qrem 250 150) then 1 else applyEase (Qrem 250 150 / 100) None)
  /\ phase 150 100 true 0 0 (-200) None 0 0
     == phase 150 100 false 0 0 (-200) None 0 0.
Proof.
  split.
  - apply (phase_loop_cycle 250 100 0 0 50 None 0 0); reflexivity.
  - apply (phase_loop_cycle 150 100 0 0 (-200) None 0 0);
      [reflexivity | reflexivity | discriminate].
Defined.

(** C5 as stated fails: with [duration = 100] and [repeatDelay = -200] the
    cycle is negative; at local time 150 the code holds 1, whereas a cycle of
    length [duration] (the clamped reading, equally [repeatDelay = 0]) would
    be half way through its second turn. *)
Lemma phase_loop_cycle_counterexample :
  -200 < - 100 /\
  phase 150 100 true 0 0 (-200) None 0 0 == 1 /\
  phase_clamped_cycle 150 100 0 0 (-200) None 0 0 == 1 # 2 /\
  phase 150 100 true 0 0 0 None 0 0 == 1 # 2 /\
  ~ phase 150 100 true 0 0 (-200) None 0 0
    == phase 150 100 true 0 0 0 None 0 0.
Proof.
  repeat split; discriminate.
Qed.




(** ** Greedy repetition *)

Lemma star_stop a k rest : stops a rest -> star a k rest = k rest.
Proof.
  destruct rest as [|c rest]; simpl; [reflexivity|].
  intros ->. reflexivity.
Qed.

Lemma star_complete a k ds rest x :
  forallb (atom_ok a) ds = true -> stops a rest ->
  k rest = Some x -> star a k (ds ++ rest) = Some x.
Proof.
  intros Hds Hrest Hk. induction ds as [|d ds IH]; simpl.
  - rewrite star_stop; assumption.
  - simpl in Hds. apply andb_true_iff in Hds as [Hd Hds].
    rewrite Hd, (IH Hds). reflexivity.
Qed.

Lemma star_sound a k s x :
  star a k s = Some x ->
  exists ds rest,
    s = ds ++ rest /\ forallb (atom_ok a) ds = true /\ k rest = Some x.
Proof.
  induction s as [|c s IH]; simpl; intros H.
  - exists [], []. auto.
  - destruct (atom_ok a c) eqn:Ec.
    + destruct (star a k s) as [y|] eqn:Es; simpl in H.
      * destruct (IH H) as (ds & rest & -> & Hds & Hk).
        exists (c :: ds), rest. simpl. rewrite Ec, Hds. auto.
      * exists [], (c :: s). auto.
    + exists [], (c :: s). auto.
Qed.

Lemma span_all p ds rest :
  forallb p ds = true ->
  match rest with c :: _ => p c = false | [] => True end ->
  span p (ds ++ rest) = (ds, rest).
Proof.
  intros Hds Hrest. induction ds as [|d ds IH]; simpl.
  - destruct rest as [|c rest]; simpl; [reflexivity|]. now rewrite Hrest.
  - simpl in Hds. apply andb_true_iff in Hds as [Hd Hds].
    now rewrite Hd, (IH Hds).
Qed.

(** ** The offset pattern and the signed-numeral grammar *)

Lemma is_sign_cases (c : ascii) :
  atom_ok (AnyOf ["+"; "-"]%char) c = true <-> c = "+"%char \/ c = "-"%char.
Proof.
  simpl. rewrite !orb_true_iff, !Ascii.eqb_eq. intuition discriminate.
Qed.

Lemma firstn_whole (s : str) : firstn (List.length s - List.length (@nil ascii)) s = s.
Proof. simpl. rewrite Nat.sub_0_r. apply firstn_all. Qed.

Lemma offset_re_sound s m :
  match_whole offset_re s = Some m -> exists v, signed_numeral s v.
Proof.
  unfold match_whole, offset_re. cbn [run].
  destruct s as [|sg s1]; [discriminate|].
  destruct (atom_ok (AnyOf ["+"; "-"]%char) sg) eqn:Esg; [|discriminate].
  apply is_sign_cases in Esg.
  destruct s1 as [|d s1]; [discriminate|].
  destruct (atom_ok Digit d) eqn:Ed; [|discriminate].
  change (is_digit d = true) in Ed.
  intros H. apply star_sound in H as (ds & rest & -> & Hds & H).
  unfold orelse in H.
  destruct rest as [|c rest].
  - eexists. rewrite app_nil_r.
    apply (signed_int sg (d :: ds)); [assumption | discriminate|].
    simpl. rewrite Ed. exact Hds.
  - destruct (atom_ok (Lit "."%char) c) eqn:Ec; [|discriminate].
    change (Ascii.eqb "."%char c = true) in Ec.
    apply Ascii.eqb_eq in Ec. subst c.
    destruct rest as [|d' rest]; [discriminate|].
    destruct (atom_ok Digit d') eqn:Ed'; [|discriminate].
    change (is_digit d' = true) in Ed'.
    destruct (star Digit _ rest) as [y|] eqn:Es; [|discriminate].
    apply star_sound in Es as (ds' & rest' & -> & Hds' & Hk).
    destruct rest' as [|? ?]; [|discriminate].
    eexists. rewrite app_nil_r.
    apply (signed_frac sg (d :: ds) (d' :: ds'));
      try assumption; try discriminate; simpl.
    + rewrite Ed. exact Hds.
    + rewrite Ed'. exact Hds'.
Qed.

Lemma offset_re_complete s v :
  signed_numeral s v ->
  exists m, match_whole offset_re s = Some m /\ capture 1 m = Some s.
Proof.
  intros H. unfold match_whole, offset_re. cbn [run].
  destruct H as [sg ip Hsg Hne Hip | sg ip fp Hsg Hne Hip Hnf Hfp].
  - apply is_sign_cases in Hsg. rewrite Hsg.
    destruct ip as [|d ds]; [congruence|].
    simpl in Hip. apply andb_true_iff in Hip as [Hd Hds].
    cbv beta iota.
    change (atom_ok Digit d = true) in Hd. rewrite Hd.
    eexists. split.
    + rewrite <- (app_nil_r ds) at 1.
      apply star_complete; [exact Hds | exact I |].
      unfold orelse. rewrite firstn_whole. reflexivity.
    + simpl. reflexivity.
  - apply is_sign_cases in Hsg. rewrite Hsg.
    destruct ip as [|d ds]; [congruence|].
    destruct fp as [|d' ds']; [congruence|].
    simpl in Hip. apply andb_true_iff in Hip as [Hd Hds].
    simpl in Hfp. apply andb_true_iff in Hfp as [Hd' Hds'].
    rewrite <- app_comm_cons. cbv beta iota.
    change (atom_ok Digit d = true) in Hd. rewrite Hd.
    eexists. split.
    + apply star_complete; [exact Hds | reflexivity |].
      change (atom_ok (Lit "."%char) "."%char) with true. cbv iota.
      change (atom_ok Digit d' = true) in Hd'. rewrite Hd'.
      rewrite <- (app_nil_r ds') at 1.
      erewrite star_complete; [| exact Hds' | exact I |].
      * unfold orelse. reflexivity.
      * rewrite firstn_whole. reflexivity.
    + simpl. reflexivity.
Qed.

(** ** [Number] on a signed numeral *)

Lemma digit_not_space c : is_digit c = true -> is_space c = false.
Proof.
  unfold is_digit, is_space, between.
  rewrite andb_true_iff, !orb_false_iff, andb_false_iff.
  rewrite !N.leb_le, !N.leb_gt, !N.eqb_neq. lia.
Qed.

Lemma trim_start_id c s : is_space c = false -> trim_start (c :: s) = c :: s.
Proof. simpl. now intros ->. Qed.

Lemma trim_id c s e :
  is_space c = false -> is_space e = false -> hd_error (rev (c :: s)) = Some e ->
  trim (c :: s) = c :: s.
Proof.
  intros Hc He Hlast. unfold trim. rewrite (trim_start_id c s Hc).
  destruct (rev (c :: s)) as [|e' r] eqn:Er; [discriminate|].
  injection Hlast as ->. rewrite (trim_start_id e r He).
  rewrite <- Er. apply rev_involutive.
Qed.

Lemma last_of_run p (ds : str) front :
  ds <> [] -> forallb p ds = true ->
  exists e, hd_error (rev (front ++ ds)) = Some e /\ p e = true.
Proof.
  intros Hne Hds. destruct (exists_last Hne) as (l & e & ->).
  exists e. rewrite app_assoc, rev_unit. split; [reflexivity|].
  rewrite forallb_app in Hds. apply andb_true_iff in Hds as [_ He].
  simpl in He. now rewrite andb_true_r in He.
Qed.

Lemma signed_numeral_trim s v : signed_numeral s v -> trim s = s.
Proof.
  intros [sg ip Hsg Hne Hip | sg ip fp Hsg Hne Hip Hnf Hfp].
  - destruct (last_of_run is_digit ip [sg] Hne Hip) as (e & He & Hd).
    apply (trim_id sg ip e); [| now apply digit_not_space | exact He].
    destruct Hsg; subst; reflexivity.
  - destruct (last_of_run is_digit fp (sg :: ip ++ ["."%char]) Hnf Hfp)
      as (e & He & Hd).
    apply (trim_id sg _ e); [| now apply digit_not_space |].
    + destruct Hsg; subst; reflexivity.
    + rewrite <- He. simpl. now rewrite <- app_assoc.
Qed.

Lemma unsigned_decimal_int ip :
  ip <> [] -> forallb is_digit ip = true ->
  unsigned_decimal ip = Num (inject_Z (digits_val ip)).
Proof.
  intros Hne Hip. unfold unsigned_decimal.
  rewrite <- (app_nil_r ip) at 1. rewrite (span_all is_digit ip [] Hip I).
  destruct ip; [congruence | reflexivity].
Qed.

Lemma unsigned_decimal_frac ip fp :
  ip <> [] -> forallb is_digit ip = true -> forallb is_digit fp = true ->
  unsigned_decimal (ip ++ "."%char :: fp)
  = Num (inject_Z (digits_val ip)
         + inject_Z (digits_val fp) / inject_Z (10 ^ Z.of_nat (List.length fp))).
Proof.
  intros Hne Hip Hfp. unfold unsigned_decimal.
  rewrite (span_all is_digit ip ("."%char :: fp) Hip eq_refl).
  rewrite Ascii.eqb_refl.
  rewrite <- (app_nil_r fp) at 1. rewrite (span_all is_digit fp [] Hfp I).
  destruct ip; [congruence | reflexivity].
Qed.

Lemma Number_signed_numeral s v :
  signed_numeral s v -> number_eq (Number s) (Num v).
Proof.
  intros H. unfold Number. rewrite (signed_numeral_trim s v H).
  destruct H as [sg ip Hsg Hne Hip | sg ip fp Hsg Hne Hip Hnf Hfp].
  - destruct Hsg; subst sg; simpl Ascii.eqb; cbv iota;
      rewrite (unsigned_decimal_int ip Hne Hip); simpl; ring.
  - destruct Hsg; subst sg; simpl Ascii.eqb; cbv iota;
      rewrite (unsigned_decimal_frac ip fp Hne Hip Hfp); simpl; ring.
Qed.

(** ** Resolving a time reference *)

Lemma startsWith_iff s p : startsWith s p = true <-> exists suf, s = p ++ suf.
Proof.
  revert s. induction p as [|c p IH]; intros s; simpl.
  - split; [exists s; reflexivity | reflexivity].
  - destruct s as [|d s].
    + split; [discriminate | intros [suf H]; discriminate].
    + rewrite andb_true_iff, Ascii.eqb_eq, IH. split.
      * intros [-> [suf ->]]. now exists suf.
      * intros [suf H]. injection H as -> ->. split; [reflexivity | now exists suf].
Qed.

Lemma startsWith_app p suf : startsWith (p ++ suf) p = true.
Proof. apply startsWith_iff. now exists suf. Qed.

Lemma slice_app p suf : slice (List.length p) (p ++ suf) = suf.
Proof.
  unfold slice. rewrite skipn_app, skipn_all, Nat.sub_diag. reflexivity.
Qed.

Lemma parseOffset_numeral base suf v :
  signed_numeral suf v -> number_eq (parseOffset base suf) (Num (base + v)).
Proof.
  intros H. pose proof (Number_signed_numeral suf v H) as HN.
  destruct (offset_re_complete suf v H) as (m & Hm & Hc).
  unfold parseOffset. rewrite Hm, Hc.
  destruct suf; [inversion H|].
  destruct (Number (a :: suf)); simpl in *; [now rewrite HN | assumption].
Qed.

Lemma parseOffset_ignored base suf :
  (forall v, ~ signed_numeral suf v) -> parseOffset base suf = Num base.
Proof.
  intros H. unfold parseOffset. destruct suf; [reflexivity|].
  destruct (match_whole offset_re (a :: suf)) as [m|] eqn:Em; [|reflexivity].
  destruct (offset_re_sound _ _ Em) as [v Hv]. now apply H in Hv.
Qed.

Lemma resolveStart_scene st prevEnd suf :
  strip_spaces st = js "scene" ++ suf ->
  resolveStart (Some (TimeStr st)) prevEnd = parseOffset 0 suf.
Proof.
  intros E. unfold resolveStart. rewrite E, startsWith_app, slice_app.
  reflexivity.
Qed.

Lemma resolveStart_prev_end st prevEnd suf :
  strip_spaces st = js "prev.end" ++ suf ->
  resolveStart (Some (TimeStr st)) prevEnd = parseOffset prevEnd suf.
Proof.
  intros E. unfold resolveStart. rewrite E, slice_app.
  change (startsWith (js "prev.end" ++ suf) (js "scene")) with false.
  rewrite startsWith_app. reflexivity.
Qed.

Example resolveStart_scene_200 :
  resolveStart (Some (TimeStr (js "scene+200"))) 0 = Num 200.
Proof. reflexivity. Qed.

(** C8.  For a string reference that, with its white space removed, is
    [scene] or [prev.end] followed by a suffix: a suffix of the signed-numeral
    grammar (a sign, digits, optionally a point and digits) is added to the
    base, 0 for [scene] and [prevEnd] for [prev.end]; with any other suffix
    the result is the base itself.  [resolveStart] is a total function: no
    input raises an error. *)
Theorem resolveStart_offset st prevEnd base suf :
  (strip_spaces st = js "scene" ++ suf /\ base = 0) \/
  (strip_spaces st = js "prev.end" ++ suf /\ base = prevEnd) ->
  (forall v, signed_numeral suf v ->
     number_eq (resolveStart (Some (TimeStr st)) prevEnd) (Num (base + v))) /\
  ((forall v, ~ signed_numeral suf v) ->
     resolveStart (Some (TimeStr st)) prevEnd = Num base).
Proof.
  intros [[E ->] | [E ->]].
  - rewrite (resolveStart_scene st prevEnd suf E). split.
    + apply parseOffset_numeral.
    + apply parseOffset_ignored.
  - rewrite (resolveStart_prev_end st prevEnd suf E). split.
    + apply parseOffset_numeral.
    + apply parseOffset_ignored.
Qed.

Lemma resolveStart_offset_witness :
  number_eq (resolveStart (Some (TimeStr (js "prev.end - 150.5"))) 1000)
            (Num (1000 + - (1505 # 10)))
  /\ resolveStart (Some (TimeStr (js "scene+2e3"))) 1000 = Num 0.
Proof.
  split.
  - assert (Hv : signed_numeral (js "-150.5")
                   ((if Ascii.eqb "-" "-" then -1 else 1)
                    * (inject_Z (digits_val (js "150"))
                       + inject_Z (digits_val (js "5"))
                         / inject_Z (10 ^ Z.of_nat (List.length (js "5")))))).
    { apply (signed_frac "-"%char (js "150") (js "5"));
        solve [now right | discriminate | reflexivity]. }
    pose proof (proj1 (resolveStart_offset (js "prev.end - 150.5") 1000 1000
                         (js "-150.5") (or_intror (conj eq_refl eq_refl)))
                      _ Hv) as H.
    destruct (resolveStart (Some (TimeStr (js "prev.end - 150.5"))) 1000);
      simpl in *; [|assumption].
    rewrite H. reflexivity.
  - apply (resolveStart_offset (js "scene+2e3") 1000 0 (js "+2e3")
             (or_introl (conj eq_refl eq_refl))).
    intros v Hv. apply offset_re_complete in Hv as (m & Hm & _).
    vm_compute in Hm. discriminate.
Defined.

(** C10.  A string reference that, with its white space removed, begins
    with neither [scene] nor [prev.end] resolves to 0 whatever [prevEnd] is. *)
Theorem resolveStart_unrecognized st prevEnd :
  (forall suf, strip_spaces st <> js "scene" ++ suf) ->
  (forall suf, strip_spaces st <> js "prev.end" ++ suf) ->
  resolveStart (Some (TimeStr st)) prevEnd = Num 0.
Proof.
  intros Hs Hp. unfold resolveStart.
  destruct (startsWith (strip_spaces st) (js "scene")) eqn:E1.
  { apply startsWith_iff in E1 as [suf E]. now apply Hs in E. }
  destruct (startsWith (strip_spaces st) (js "prev.end")) eqn:E2.
  { apply startsWith_iff in E2 as [suf E]. now apply Hp in E. }
  reflexivity.
Qed.

Lemma resolveStart_unrecognized_witness :
  resolveStart (Some (TimeStr (js "prev_end + 150"))) 1000 = Num 0.
Proof.
  apply (resolveStart_unrecognized (js "prev_end + 150") 1000);
    intros suf H; vm_compute in H; discriminate.
Defined.

(** ** The colour pattern never matches text without a backslash *)

Lemma run_rgb_re_none s m k : ~ In backslash s -> run rgb_re s m k = None.
Proof.
  intros Hs. unfold rgb_re. cbn [lits js list_ascii_of_string run].
  destruct s as [|c0 s]; [reflexivity|].
  destruct (atom_ok (Lit "r"%char) c0); [|reflexivity].
  destruct s as [|c1 s]; [reflexivity|].
  destruct (atom_ok (Lit "g"%char) c1); [|reflexivity].
  destruct s as [|c2 s]; [reflexivity|].
  destruct (atom_ok (Lit "b"%char) c2); [|reflexivity].
  destruct s as [|c3 s]; [reflexivity|].
  destruct (atom_ok (Lit backslash) c3) eqn:E; [|reflexivity].
  exfalso. apply Hs. change (Ascii.eqb backslash c3 = true) in E.
  apply Ascii.eqb_eq in E. subst c3. simpl. tauto.
Qed.

Lemma match_search_rgb_re_none s : ~ In backslash s -> match_search rgb_re s = None.
Proof.
  induction s as [|c s IH]; intros Hs; cbn [match_search].
  - now rewrite run_rgb_re_none.
  - rewrite run_rgb_re_none by assumption.
    apply IH. intros H. apply Hs. now right.
Qed.

Lemma digit_not_upper c : is_digit c = true -> is_upper c = false.
Proof.
  unfold is_digit, is_upper, between.
  rewrite andb_true_iff, !orb_false_iff, !andb_false_iff.
  rewrite !N.leb_le, !N.leb_gt. lia.
Qed.

Lemma space_not_upper c : is_space c = true -> is_upper c = false.
Proof.
  unfold is_space, is_upper, between.
  rewrite !orb_true_iff, andb_true_iff, !orb_false_iff, !andb_false_iff.
  rewrite !N.leb_le, !N.leb_gt, !N.eqb_eq. lia.
Qed.

Lemma toLowerCase_fixed s :
  forallb (fun c => negb (is_upper c)) s = true -> toLowerCase s = s.
Proof.
  induction s as [|c s IH]; simpl; [reflexivity|].
  rewrite andb_true_iff, negb_true_iff. intros [Hc Hs].
  unfold lower_char. rewrite Hc. f_equal. now apply IH.
Qed.

Lemma forallb_impl {A} (p q : A -> bool) l :
  (forall x, p x = true -> q x = true) ->
  forallb p l = true -> forallb q l = true.
Proof.
  intros Hpq. rewrite !forallb_forall. auto.
Qed.

Lemma digits_lower s :
  forallb is_digit s = true -> forallb (fun c => negb (is_upper c)) s = true.
Proof.
  apply forallb_impl. intros c Hc. now rewrite (digit_not_upper c Hc).
Qed.

Lemma spaces_lower s :
  forallb is_space s = true -> forallb (fun c => negb (is_upper c)) s = true.
Proof.
  apply forallb_impl. intros c Hc. now rewrite (space_not_upper c Hc).
Qed.

Lemma no_backslash_run p s :
  p backslash = false -> forallb p s = true -> ~ In backslash s.
Proof.
  intros Hp Hs Hin. rewrite forallb_forall in Hs.
  apply Hs in Hin. congruence.
Qed.

Section RgbText.
Variables r g b ws1 ws2 : str.
Hypothesis Hr : forallb is_digit r = true.
Hypothesis Hg : forallb is_digit g = true.
Hypothesis Hb : forallb is_digit b = true.
Hypothesis Hws1 : forallb is_space ws1 = true.
Hypothesis Hws2 : forallb is_space ws2 = true.

Lemma rgb_text_lower : toLowerCase (rgb_text r g b ws1 ws2) = rgb_text r g b ws1 ws2.
Proof.
  apply toLowerCase_fixed. unfold rgb_text.
  rewrite !forallb_app.
  rewrite (digits_lower r Hr), (digits_lower g Hg), (digits_lower b Hb).
  rewrite (spaces_lower ws1 Hws1), (spaces_lower ws2 Hws2).
  reflexivity.
Qed.

Lemma rgb_text_trim : trim (rgb_text r g b ws1 ws2) = rgb_text r g b ws1 ws2.
Proof.
  unfold rgb_text. cbn [js list_ascii_of_string app].
  apply (trim_id _ _ ")"%char); [reflexivity | reflexivity |].
  rewrite !app_comm_cons, !app_assoc. rewrite rev_unit. reflexivity.
Qed.

Lemma rgb_text_no_backslash : ~ In backslash (rgb_text r g b ws1 ws2).
Proof.
  unfold rgb_text. rewrite !in_app_iff.
  pose proof (no_backslash_run is_digit r eq_refl Hr).
  pose proof (no_backslash_run is_digit g eq_refl Hg).
  pose proof (no_backslash_run is_digit b eq_refl Hb).
  pose proof (no_backslash_run is_space ws1 eq_refl Hws1).
  pose proof (no_backslash_run is_space ws2 eq_refl Hws2).
  intros [Hl|[?|[Hl|[?|[?|[Hl|[?|[?|Hl]]]]]]]]; try tauto;
    simpl in Hl; intuition discriminate.
Qed.

Lemma parseColor_rgb_text_null : parseColor (rgb_text r g b ws1 ws2) = Ok None.
Proof.
  unfold parseColor. rewrite rgb_text_trim, rgb_text_lower.
  rewrite (match_search_rgb_re_none _ rgb_text_no_backslash).
  unfold rgb_text. cbn [js list_ascii_of_string app].
  reflexivity.
Qed.
End RgbText.

(** ** Easing respects equality of rationals *)

Lemma Qltb_compat a b c d : a == c -> b == d -> Qltb a b = Qltb c d.
Proof.
  intros H1 H2.
  destruct (Qltb a b) eqn:E1; destruct (Qltb c d) eqn:E2; try reflexivity;
    try apply Qltb_lt in E1; try apply Qltb_ge in E1;
    try apply Qltb_lt in E2; try apply Qltb_ge in E2; exfalso; lra.
Qed.

Lemma applyEase_compat ease s t : s == t -> applyEase s ease == applyEase t ease.
Proof.
  intros H. destruct ease as [[| | | |x1 y1 x2 y2]|]; simpl;
    try (rewrite H; reflexivity).
  - rewrite (Qltb_compat s (1 # 2) t (1 # 2) H (Qeq_refl _)).
    destruct (Qltb t (1 # 2)); rewrite H; reflexivity.
  - unfold cubicBezier. rewrite H. reflexivity.
Qed.

Lemma lerp_same v e : lerp v v e == v.
Proof. unfold lerp. ring. Qed.

Lemma lerp_end a b e : e == 1 -> lerp a b e == b.
Proof. intros H. unfold lerp. rewrite H. ring. Qed.

(** ** Locating the segment *)

Lemma segment_loop_none local a ks :
  (forall k, In k ks -> Keyframe.time k < local) ->
  segment_loop local (a :: ks) = None.
Proof.
  revert a. induction ks as [|b ks IH]; intros a H; [reflexivity|].
  cbn [segment_loop].
  assert (Hb : Keyframe.time b < local) by (apply H; now left).
  apply Qle_bool_gt in Hb. rewrite Hb.
  apply IH. intros k Hk. apply H. now right.
Qed.

Lemma segment_loop_at local a ks i k :
  nth_error ks i = Some k ->
  local <= Keyframe.time k ->
  Keyframe.time a < local ->
  first_at ks i local ->
  exists a',
    Keyframe.time a' < local /\
    segment_loop local (a :: ks)
    = Some (a', k,
            if Qle_bool (Keyframe.time k - Keyframe.time a') 0 then 1
            else (local - Keyframe.time a')
                 / (Keyframe.time k - Keyframe.time a')).
Proof.
  revert a ks. induction i as [|i IH]; intros a ks Hn Hle Ha Hfirst.
  - destruct ks as [|b ks]; [discriminate|]. injection Hn as ->.
    exists a. split; [assumption|]. cbn [segment_loop].
    apply Qle_bool_iff in Hle. now rewrite Hle.
  - destruct ks as [|b ks]; [discriminate|]. simpl in Hn.
    assert (Hb : Keyframe.time b < local).
    { apply (Hfirst 0%nat b); [lia | reflexivity]. }
    cbn [segment_loop]. pose proof Hb as Hb'.
    apply Qle_bool_gt in Hb'. rewrite Hb'.
    apply IH; try assumption.
    intros j k' Hj Hk'. apply (Hfirst (S j) k'); [lia | exact Hk'].
Qed.

Lemma ascending_tail a ks : ascending (a :: ks) -> ascending ks.
Proof. destruct ks; simpl; tauto. Qed.

Lemma ascending_last a ks d :
  ascending (a :: ks) -> forall k, In k (a :: ks) ->
  Keyframe.time k <= Keyframe.time (List.last (a :: ks) d).
Proof.
  revert a. induction ks as [|b ks IH]; intros a Hs k Hin.
  - destruct Hin as [->|[]]. simpl. lra.
  - change (List.last (a :: b :: ks) d) with (List.last (b :: ks) d).
    destruct Hs as [Hab Hs]. destruct Hin as [->|Hin].
    + specialize (IH b Hs b (or_introl eq_refl)). lra.
    + apply IH; assumption.
Qed.

Lemma strictly_ascending_first ks i k :
  strictly_ascending ks -> nth_error ks i = Some k ->
  first_at ks i (Keyframe.time k).
Proof.
  revert i. induction ks as [|a ks IH]; intros i Hs Hn j k' Hj Hk'.
  - destruct j; discriminate.
  - destruct i as [|i]; [lia|]. simpl in Hn.
    assert (Hs' : strictly_ascending ks) by (destruct ks; simpl in *; tauto).
    destruct j as [|j].
    + injection Hk' as <-.
      (* the head is below every later keyframe *)
      clear IH Hj. revert a ks Hs Hs' Hn.
      induction i as [|i IHi]; intros a ks Hs Hs' Hn.
      * destruct ks as [|b ks]; [discriminate|]. injection Hn as ->.
        apply Hs.
      * destruct ks as [|b ks]; [discriminate|]. simpl in Hn.
        destruct Hs as [Hab Hs].
        assert (Hs'' : strictly_ascending ks) by (destruct ks; simpl in *; tauto).
        specialize (IHi b ks Hs Hs'' Hn). lra.
    + simpl in Hk'. apply (IH i Hs' Hn j k'); [lia | exact Hk'].
Qed.

(** ** Keyframe interpolation at and outside the keyframe times *)

Section KeyframeValues.
Variables (time : Q) (spec : Spec.t) (start index stagger : Q).
Let local := localTimeForKeyframes time spec start index stagger.

Lemma keyframeNumber_before k0 rest :
  local <= Keyframe.time k0 ->
  returns (keyframeNumber time (k0 :: rest) spec start index stagger)
          (Keyframe.value k0).
Proof.
  intros Hle. unfold keyframeNumber. fold local.
  destruct rest as [|k1 rest]; [simpl; reflexivity|].
  unfold segmentForKeyframes. apply Qle_bool_iff in Hle. rewrite Hle.
  simpl. apply lerp_same.
Qed.

Lemma keyframeNumber_after k0 rest :
  ascending (k0 :: rest) ->
  Keyframe.time (List.last (k0 :: rest) k0) < local ->
  returns (keyframeNumber time (k0 :: rest) spec start index stagger)
          (Keyframe.value (List.last (k0 :: rest) k0)).
Proof.
  intros Hs Hlt. unfold keyframeNumber. fold local.
  destruct rest as [|k1 rest]; [simpl; reflexivity|].
  unfold segmentForKeyframes.
  pose proof (ascending_last k0 (k1 :: rest) k0 Hs) as Hall.
  assert (H0 : Keyframe.time k0 < local).
  { specialize (Hall k0 (or_introl eq_refl)). lra. }
  apply Qle_bool_gt in H0. rewrite H0.
  rewrite segment_loop_none.
  - simpl bind. cbv beta iota. apply lerp_same.
  - intros k Hk. specialize (Hall k (or_intror Hk)). lra.
Qed.

Lemma keyframeNumber_at ks i k :
  nth_error ks i = Some k ->
  local == Keyframe.time k ->
  first_at ks i (Keyframe.time k) ->
  returns (keyframeNumber time ks spec start index stagger)
          (Keyframe.value k).
Proof.
  intros Hn Heq Hfirst.
  destruct ks as [|k0 rest]; [destruct i; discriminate|].
  destruct i as [|i].
  { injection Hn as ->. apply keyframeNumber_before. lra. }
  simpl in Hn. unfold keyframeNumber. fold local.
  destruct rest as [|k1 rest]; [destruct i; discriminate|].
  unfold segmentForKeyframes.
  assert (H0 : Keyframe.time k0 < local).
  { specialize (Hfirst 0%nat k0). rewrite Heq. apply Hfirst; [lia | reflexivity]. }
  pose proof H0 as H0'. apply Qle_bool_gt in H0'. rewrite H0'.
  destruct (segment_loop_at local k0 (k1 :: rest) i k Hn) as (a' & Ha' & ->).
  - lra.
  - exact H0.
  - intros j k' Hj Hk'. rewrite Heq.
    apply (Hfirst (S j) k'); [lia | exact Hk'].
  - simpl bind. cbv beta iota.
    assert (Hspan : 0 < Keyframe.time k - Keyframe.time a') by lra.
    pose proof Hspan as Hspan'. apply Qle_bool_gt in Hspan'. rewrite Hspan'.
    apply lerp_end.
    rewrite (applyEase_compat _ _ 1); [apply applyEase_one|].
    rewrite Heq. field. lra.
Qed.
End KeyframeValues.




(** ** Sequences *)

Section FlowFacts.
Context {ShapeBuilder ShapeInstance : Type}.
Variable estimateDuration : ShapeBuilder -> Q.
Variable evaluate : ShapeBuilder -> Q -> list ShapeInstance.

(** Sum of the estimated durations of a list of items. *)
Let total (items : list (ShapeLike ShapeBuilder)) : Q :=
  fold_right (fun it acc => durationOfItem estimateDuration it + acc) 0 items.

Lemma sequence_entries_length cursor items :
  List.length (sequence_entries estimateDuration cursor items) = List.length items.
Proof.
  revert cursor. induction items as [|it rest IH]; intros cursor; simpl;
    [reflexivity | now rewrite IH].
Qed.

(** Every entry carries its item and, as offset, the cursor plus the
    estimated durations of the items before it. *)
Lemma sequence_entries_nth cursor items i e :
  nth_error (sequence_entries estimateDuration cursor items) i = Some e ->
  nth_error items i = Some (item e) /\
  offset e == cursor + total (firstn i items).
Proof.
  revert cursor i. induction items as [|it rest IH]; intros cursor i H.
  - destruct i; discriminate.
  - destruct i as [|i]; simpl in H.
    + injection H as <-. unfold total. simpl. split; [reflexivity | ring].
    + destruct (IH _ _ H) as [Hit Hoff]. split; [exact Hit|].
      rewrite Hoff. unfold total. simpl. ring.
Qed.

Lemma entry_output_early time e :
  time < offset e -> entry_output evaluate time e = [].
Proof.
  intros H. unfold entry_output. apply Qltb_lt in H. now rewrite H.
Qed.

Lemma entry_output_due time e :
  offset e <= time ->
  entry_output evaluate time e
  = flattenItems evaluate [item e] (time - offset e) (offset e).
Proof.
  intros H. unfold entry_output. apply Qltb_ge in H. now rewrite H.
Qed.

End FlowFacts.


(** ** Distortion of a rectangle *)

Lemma Math_min_l a b : a <= b -> Math_min a b = a.
Proof. intros H. unfold Math_min. apply Qltb_ge in H. now rewrite H. Qed.

Lemma Math_max_l a b : b <= a -> Math_max a b = a.
Proof. intros H. unfold Math_max. apply Qltb_ge in H. now rewrite H. Qed.

Lemma Math_max_r a b : a < b -> Math_max a b = b.
Proof. intros H. unfold Math_max. apply Qltb_lt in H. now rewrite H. Qed.

Lemma normalize_inside c lo hi :
  lo < hi -> normalize c lo hi = (c - lo) / (hi - lo).
Proof.
  intros H. unfold normalize.
  destruct (Qeq_bool (hi - lo) 0) eqn:E; [|reflexivity].
  apply Qeq_bool_iff in E. lra.
Qed.

Lemma rect_bounds w :
  0 < w ->
  least [- (w / 2); w / 2; w / 2; - (w / 2)] = - (w / 2) /\
  greatest [- (w / 2); w / 2; w / 2; - (w / 2)] = w / 2.
Proof.
  intros Hw. unfold least, greatest. simpl.
  assert (Hhalf : 0 < w / 2) by (rewrite Qdiv2; lra).
  set (a := w / 2) in *. split.
  - rewrite (Math_min_l (- a) a) by lra.
    rewrite (Math_min_l (- a) a) by lra.
    apply Math_min_l. lra.
  - rewrite (Math_max_r (- a) a) by lra.
    rewrite (Math_max_l a a) by lra.
    apply Math_max_l. lra.
Qed.

Lemma rect_bounds_y h :
  0 < h ->
  least [- (h / 2); - (h / 2); h / 2; h / 2] = - (h / 2) /\
  greatest [- (h / 2); - (h / 2); h / 2; h / 2] = h / 2.
Proof.
  intros Hh. unfold least, greatest. simpl.
  assert (Hhalf : 0 < h / 2) by (rewrite Qdiv2; lra).
  set (a := h / 2) in *. split.
  - rewrite (Math_min_l (- a) (- a)) by lra.
    rewrite (Math_min_l (- a) a) by lra.
    apply Math_min_l. lra.
  - rewrite (Math_max_l (- a) (- a)) by lra.
    rewrite (Math_max_r (- a) a) by lra.
    apply Math_max_l. lra.
Qed.

(** The second case of the test of [distort]: the lower left corner of a
    square polygon moves by its whole displacement. *)
Example distort_polygon_test :
  exists p0 p1 p2 p3 closed,
    evaluate_shape
      (distort {| tl := None; tr := None; br := None;
                  bl := Some (Vec2.make 0 20) |}
               (Polygon [Vec2.make 0 0; Vec2.make 100 0;
                         Vec2.make 100 100; Vec2.make 0 100] true)) 0
    = [ {| kind := Kind.path; geom := PathGeom [p0; p1; p2; p3] closed |} ] /\
    vec_eq p3 (Vec2.make 0 120).
Proof.
  do 5 eexists. split; [reflexivity|]. split; reflexivity.
Qed.

(** With no displacement at all the points stay where they are. *)
Lemma distort_point_identity minX maxX minY maxY p :
  vec_eq (distort_point {| tl := None; tr := None; br := None; bl := None |}
                        minX maxX minY maxY p) p.
Proof.
  unfold vec_eq, distort_point. simpl. split; ring.
Qed.

(** C3.  Distorting a rectangle of positive size yields, at every time, one
    instance of kind path, closed, with exactly four points: the corners
    tl, tr, br, bl of the rectangle, each moved by the whole displacement
    given for it (none for an unspecified corner). *)
Theorem distort_rect_pins_corners w h c time :
  0 < w -> 0 < h ->
  exists p0 p1 p2 p3,
    evaluate_shape (distort c (Rect w h)) time
    = [ {| kind := Kind.path; geom := PathGeom [p0; p1; p2; p3] true |} ] /\
    vec_eq p0 (Vec2.make (- (w / 2) + Vec2.x (corner (tl c)))
                         (- (h / 2) + Vec2.y (corner (tl c)))) /\
    vec_eq p1 (Vec2.make (w / 2 + Vec2.x (corner (tr c)))
                         (- (h / 2) + Vec2.y (corner (tr c)))) /\
    vec_eq p2 (Vec2.make (w / 2 + Vec2.x (corner (br c)))
                         (h / 2 + Vec2.y (corner (br c)))) /\
    vec_eq p3 (Vec2.make (- (w / 2) + Vec2.x (corner (bl c)))
                         (h / 2 + Vec2.y (corner (bl c)))).
Proof.
  intros Hw Hh.
  unfold evaluate_shape, distort, Rect. simpl fold_left.
  unfold distort_geom. cbn [geom geom_points map Vec2.x Vec2.y].
  destruct (rect_bounds w Hw) as [-> ->].
  destruct (rect_bounds_y h Hh) as [-> ->].
  do 4 eexists. split; [reflexivity|].
  unfold vec_eq, distort_point. simpl Vec2.x. simpl Vec2.y.
  assert (Hw2 : 0 < w / 2) by (rewrite Qdiv2; lra).
  assert (Hh2 : 0 < h / 2) by (rewrite Qdiv2; lra).
  rewrite !normalize_inside by lra.
  repeat split; field; lra.
Qed.

Lemma distort_rect_pins_corners_witness :
  exists p0 p1 p2 p3,
    evaluate_shape
      (distort {| tl := Some (Vec2.make (-10) 0);
                  tr := Some (Vec2.make 10 0);
                  br := None; bl := None |}
               (Rect 100 50)) 0
    = [ {| kind := Kind.path; geom := PathGeom [p0; p1; p2; p3] true |} ] /\
    vec_eq p0 (Vec2.make (-60) (-25)) /\
    vec_eq p1 (Vec2.make 60 (-25)).
Proof.
  destruct (distort_rect_pins_corners 100 50
              {| tl := Some (Vec2.make (-10) 0);
                 tr := Some (Vec2.make 10 0);
                 br := None; bl := None |} 0)
    as (p0 & p1 & p2 & p3 & Hev & [H0x H0y] & [H1x H1y] & _);
    [reflexivity | reflexivity |].
  exists p0, p1, p2, p3. split; [exact Hev|].
  unfold vec_eq. rewrite H0x, H0y, H1x, H1y.
  repeat split; reflexivity.
Defined.

(** ** Colours *)

Lemma nonempty_run p (s : str) :
  s <> [] -> forallb p s = true ->
  exists c s', s = c :: s' /\ p c = true /\ forallb p s' = true.
Proof.
  destruct s as [|c s']; [congruence|]. simpl.
  rewrite andb_true_iff. intros _ [Hc Hs]. now exists c, s'.
Qed.

Lemma space_not_digit c : is_space c = true -> is_digit c = false.
Proof.
  intros H. destruct (is_digit c) eqn:E; [|reflexivity].
  apply digit_not_space in E. congruence.
Qed.

(** The pattern the specification describes does match [rgb(r,g,b)] text. *)
Lemma rgb_text_re_matches s :
  is_rgb_text s -> exists m, match_search rgb_text_re s = Some m.
Proof.
  intros (r & g & b & ws1 & ws2 & -> & (Hr0 & Hg0 & Hb0) & (Hr & Hg & Hb)
          & (Hw1 & Hw2)).
  destruct (nonempty_run _ _ Hr0 Hr) as (r1 & rs & -> & Hr1 & Hrs).
  destruct (nonempty_run _ _ Hg0 Hg) as (g1 & gs & -> & Hg1 & Hgs).
  destruct (nonempty_run _ _ Hb0 Hb) as (b1 & bs & -> & Hb1 & Hbs).
  unfold rgb_text, rgb_text_re.
  cbn [js list_ascii_of_string app lits match_search run].
  change (atom_ok (Lit "r"%char) "r"%char) with true.
  change (atom_ok (Lit "g"%char) "g"%char) with true.
  change (atom_ok (Lit "b"%char) "b"%char) with true.
  change (atom_ok (Lit "("%char) "("%char) with true.
  cbv iota.
  change (atom_ok Digit r1) with (is_digit r1). rewrite Hr1.
  erewrite star_complete; [eexists; reflexivity | exact Hrs | reflexivity |].
  change (atom_ok (Lit ","%char) ","%char) with true. cbv iota.
  erewrite star_complete; [reflexivity | exact Hw1 | exact (digit_not_space _ Hg1) |].
  change (atom_ok Digit g1) with (is_digit g1). rewrite Hg1.
  erewrite star_complete; [reflexivity | exact Hgs | reflexivity |].
  change (atom_ok (Lit ","%char) ","%char) with true. cbv iota.
  erewrite star_complete; [reflexivity | exact Hw2 | exact (digit_not_space _ Hb1) |].
  change (atom_ok Digit b1) with (is_digit b1). rewrite Hb1.
  erewrite star_complete; [reflexivity | exact Hbs | reflexivity |].
  reflexivity.
Qed.

Lemma parseColor_is_rgb_text s : is_rgb_text s -> parseColor s = Ok None.
Proof.
  intros (r & g & b & ws1 & ws2 & -> & _ & (Hr & Hg & Hb) & (Hw1 & Hw2)).
  now apply parseColor_rgb_text_null.
Qed.

Lemma accepted_rgb_text s : is_rgb_text s -> accepted_form s = true.
Proof.
  intros H. destruct (rgb_text_re_matches s H) as [m Hm].
  destruct H as (r & g & b & ws1 & ws2 & -> & _ & (Hr & Hg & Hb) & (Hw1 & Hw2)).
  unfold accepted_form. cbv zeta.
  rewrite rgb_text_trim, rgb_text_lower by assumption.
  rewrite Hm. now rewrite orb_true_r.
Qed.

(** The fallback of [lerpColor]: when [parseColor] gives null for the first
    colour and does not throw for the second, the first is returned. *)
Lemma lerpColor_null_from a b t cb :
  parseColor a = Ok None -> parseColor b = Ok cb -> lerpColor a b t = Ok a.
Proof.
  intros Ha Hb. unfold lerpColor. rewrite Ha, Hb. reflexivity.
Qed.

Lemma lerpColor_null_to a b t ca :
  parseColor a = Ok ca -> parseColor b = Ok None -> lerpColor a b t = Ok a.
Proof.
  intros Ha Hb. unfold lerpColor. rewrite Ha, Hb. simpl.
  destruct ca; reflexivity.
Qed.

(** Hexadecimal colours are parsed and interpolated, halves rounding up. *)
Example lerpColor_hex_midpoint :
  lerpColor (js "#000000") (js "#ffffff") (1 # 2) = Ok (js "rgb(128, 128, 128)").
Proof. reflexivity. Qed.

(** C2 (the code at the failing inputs).  For every well-formed
    [rgb(r,g,b)] text, one of the three accepted forms, [parseColor] returns
    null instead of the channels: its pattern, as written, asks for
    backslashes in the text.  Hence [lerpColor] over two such texts returns
    the first unchanged for every [t] and interpolates nothing. *)
Theorem lerpColor_rgb_text_not_parsed a b t :
  is_rgb_text a -> is_rgb_text b ->
  accepted_form a = true /\
  parseColor a = Ok None /\
  lerpColor a b t = Ok a.
Proof.
  intros Ha Hb. split; [now apply accepted_rgb_text|].
  split; [now apply parseColor_is_rgb_text|].
  apply (lerpColor_null_from a b t None); now apply parseColor_is_rgb_text.
Qed.

Lemma is_rgb_text_example_from : is_rgb_text (js "rgb(0,0,0)").
Proof.
  exists (js "0"), (js "0"), (js "0"), [], [].
  repeat split; solve [reflexivity | discriminate].
Defined.

Lemma is_rgb_text_example_to : is_rgb_text (js "rgb(255, 255, 255)").
Proof.
  exists (js "255"), (js "255"), (js "255"), (js " "), (js " ").
  repeat split; solve [reflexivity | discriminate].
Defined.

Lemma lerpColor_rgb_text_not_parsed_witness :
  parseColor (js "rgb(0,0,0)") = Ok None /\
  lerpColor (js "rgb(0,0,0)") (js "rgb(255, 255, 255)") (1 # 2)
  = Ok (js "rgb(0,0,0)").
Proof.
  apply (lerpColor_rgb_text_not_parsed (js "rgb(0,0,0)")
           (js "rgb(255, 255, 255)") (1 # 2)
           is_rgb_text_example_from is_rgb_text_example_to).
Defined.

(** C9 (the code at the failing inputs).  A [#] followed by three
    characters that are not hexadecimal digits is none of the accepted forms,
    yet [parseColor] does not return null for it: the channels are NaN and
    [lerpColor] returns the text [rgb(NaN, NaN, NaN)] instead of the first
    colour.  With stray characters after a hexadecimal digit the digit alone
    is read, and again the first colour is not what comes back. *)
Theorem lerpColor_unparseable_not_returned t :
  (accepted_form (js "#zzz") = false /\
   lerpColor (js "#zzz") (js "black") t = Ok (js "rgb(NaN, NaN, NaN)")) /\
  (accepted_form (js "#1z2z3z") = false /\
   lerpColor (js "#1z2z3z") (js "black") 0 = Ok (js "rgb(1, 2, 3)")).
Proof.
  repeat split; reflexivity.
Qed.

(** A name found on the prototype of the palette object, such as
    [constructor], is none of the accepted forms either; the lookup yields a
    function, destructuring it throws, and so does [lerpColor]. *)
Lemma lerpColor_prototype_name_throws t :
  accepted_form (js "constructor") = false /\
  lerpColor (js "constructor") (js "black") t = Throw TypeError /\
  lerpColor (js "black") (js "__proto__") t = Throw TypeError.
Proof.
  repeat split; reflexivity.
Qed.

(** * Further properties of the embedded code *)

(** ** The range of [phase] *)

Lemma applyEase_le_one ease t :
  unit_ease ease -> 0 <= t -> t <= 1 -> applyEase t ease <= 1.
Proof.
  intros Hu H0 H1. rewrite <- (applyEase_one ease).
  apply applyEase_mono; auto. lra.
Qed.

Lemma Qdiv_le_one (a d : Q) : 0 < d -> a <= d -> a / d <= 1.
Proof.
  intros Hd Had. apply Qle_shift_div_r; [assumption | lra].
Qed.

Lemma Qdiv_nonneg (a d : Q) : 0 < d -> 0 <= a -> 0 <= a / d.
Proof.
  intros Hd Ha. apply Qle_shift_div_l; [assumption | lra].
Qed.

(** With an easing that stays inside the unit interval, the progress
    computed by [phase] is a number between 0 and 1, looping or not. *)
Theorem phase_range time duration loop start delay repeatDelay ease
    stagger index :
  unit_ease ease ->
  0 <= phase time duration loop start delay repeatDelay ease stagger index
  /\ phase time duration loop start delay repeatDelay ease stagger index <= 1.
Proof.
  intros Hu. unfold phase.
  destruct (Qle_bool duration 0) eqn:Ed; [split; lra|].
  apply Qle_bool_gt in Ed.
  set (local := time - start - delay - index * stagger).
  destruct (Qle_bool local 0) eqn:El; [split; lra|].
  apply Qle_bool_gt in El.
  destruct loop.
  - set (cycle := duration + repeatDelay).
    assert (Hin : 0 <= (if Qltb 0 cycle then Qrem local cycle else local)).
    { destruct (Qltb 0 cycle) eqn:Ec; [|lra].
      apply Qltb_lt in Ec. apply Qrem_bounds; lra. }
    set (inCycle := if Qltb 0 cycle then Qrem local cycle else local) in *.
    destruct (Qltb duration inCycle) eqn:Eg; [split; lra|].
    apply Qltb_ge in Eg.
    pose proof (Qdiv_nonneg inCycle duration Ed Hin).
    pose proof (Qdiv_le_one inCycle duration Ed Eg).
    split; [apply applyEase_nonneg | apply applyEase_le_one]; assumption.
  - pose proof (Qdiv_pos local duration Ed El) as Hpos.
    destruct (Qltb 1 (local / duration)) eqn:E1.
    + split; [apply applyEase_nonneg | apply applyEase_le_one]; auto; lra.
    + apply Qltb_ge in E1.
      split; [apply applyEase_nonneg | apply applyEase_le_one]; auto; lra.
Qed.

Lemma phase_range_witness :
  0 <= phase 250 100 true 0 0 50 (Some easeInOut) 0 0
  /\ phase 250 100 true 0 0 50 (Some easeInOut) 0 0 <= 1.
Proof.
  apply (phase_range 250 100 true 0 0 50 (Some easeInOut) 0 0). exact I.
Defined.

Lemma phase_end time duration start delay repeatDelay ease
    stagger index :
  start + delay + index * stagger + duration <= time ->
  phase time duration false start delay repeatDelay ease stagger index == 1.
Proof.
  intros Ht. unfold phase.
  destruct (Qle_bool duration 0) eqn:Ed; [reflexivity|].
  apply Qle_bool_gt in Ed.
  set (local := time - start - delay - index * stagger).
  assert (Hl : duration <= local) by (unfold local; lra).
  destruct (Qle_bool local 0) eqn:El.
  { apply Qle_bool_iff in El. lra. }
  destruct (Qltb 1 (local / duration)) eqn:E1; [apply applyEase_one|].
  apply Qltb_ge in E1.
  rewrite (applyEase_compat ease _ 1); [apply applyEase_one|].
  assert (1 <= local / duration).
  { apply Qle_shift_div_l; [assumption | lra]. }
  lra.
Qed.




(** ** [phase] as a function of the local time *)

Lemma phase_phase_local time duration loop start delay repeatDelay ease
    stagger index :
  phase time duration loop start delay repeatDelay ease stagger index
  = phase_local (time - start - delay - index * stagger) duration loop
                repeatDelay ease.
Proof. reflexivity. Qed.

Lemma Qfloor_unique (x : Q) (z : Z) :
  inject_Z z <= x -> x < inject_Z (z + 1) -> Qfloor x = z.
Proof.
  intros Hlo Hhi.
  pose proof (Qfloor_resp_le _ _ Hlo) as H1. rewrite Qfloor_Z in H1.
  pose proof (Qfloor_le x) as H2.
  assert (H3 : inject_Z (Qfloor x) < inject_Z (z + 1)) by lra.
  rewrite <- Zlt_Qlt in H3. lia.
Qed.

Lemma Qfloor_succ (x : Q) : Qfloor (x + 1) = (Qfloor x + 1)%Z.
Proof.
  apply Qfloor_unique.
  - rewrite inject_Z_plus. pose proof (Qfloor_le x).
    change (inject_Z 1) with 1. lra.
  - pose proof (Qlt_floor x) as H. rewrite !inject_Z_plus in *.
    change (inject_Z 1) with 1 in *. lra.
Qed.

Lemma Qrem_compat (a a' b b' : Q) :
  a == a' -> b == b' -> 0 <= a -> 0 < b -> Qrem a b == Qrem a' b'.
Proof.
  intros Ha Hb H0 Hpos. unfold Qrem.
  assert (Hq : 0 <= a / b) by (apply Qdiv_nonneg; assumption).
  assert (Hq' : 0 <= a' / b').
  { apply Qdiv_nonneg; [rewrite <- Hb | rewrite <- Ha]; assumption. }
  rewrite (Qtrunc_floor _ Hq), (Qtrunc_floor _ Hq').
  assert (E : a / b == a' / b') by (rewrite Ha, Hb; reflexivity).
  rewrite (Qfloor_comp _ _ E), Ha, Hb. reflexivity.
Qed.

Lemma Qrem_add_cycle (a b : Q) :
  0 <= a -> 0 < b -> Qrem (a + b) b == Qrem a b.
Proof.
  intros Ha Hb. unfold Qrem.
  assert (Hq : 0 <= a / b) by (apply Qdiv_nonneg; assumption).
  assert (Hq' : 0 <= (a + b) / b) by (apply Qdiv_nonneg; lra).
  rewrite (Qtrunc_floor _ Hq), (Qtrunc_floor _ Hq').
  assert (E : (a + b) / b == a / b + 1) by (field; lra).
  rewrite (Qfloor_comp _ _ E), Qfloor_succ, inject_Z_plus.
  change (inject_Z 1) with 1. ring.
Qed.

Lemma ease_or_hold_compat duration ease x y :
  x == y ->
  (if Qltb duration x then 1 else applyEase (x / duration) ease)
  == (if Qltb duration y then 1 else applyEase (y / duration) ease).
Proof.
  intros H. rewrite (Qltb_compat duration x duration y (Qeq_refl _) H).
  destruct (Qltb duration y); [reflexivity|].
  apply applyEase_compat. now rewrite H.
Qed.

Lemma phase_local_compat l1 l2 duration loop repeatDelay ease :
  l1 == l2 ->
  phase_local l1 duration loop repeatDelay ease
  == phase_local l2 duration loop repeatDelay ease.
Proof.
  intros H. unfold phase_local.
  destruct (Qle_bool duration 0) eqn:Ed; [reflexivity|].
  apply Qle_bool_gt in Ed.
  rewrite (Qleb_comp _ _ H 0 0 (Qeq_refl 0)).
  destruct (Qle_bool l2 0) eqn:El; [reflexivity|].
  apply Qle_bool_gt in El.
  destruct loop.
  - apply ease_or_hold_compat.
    destruct (Qltb 0 (duration + repeatDelay)) eqn:Ec; [|exact H].
    apply Qltb_lt in Ec. apply Qrem_compat; [exact H | reflexivity | lra | exact Ec].
  - assert (E : l1 / duration == l2 / duration) by now rewrite H.
    rewrite (Qltb_compat 1 (l1 / duration) 1 (l2 / duration) (Qeq_refl _) E).
    destruct (Qltb 1 (l2 / duration)); [reflexivity|].
    now apply applyEase_compat.
Qed.




(** ** The local time of a keyframe spec *)

(** When the duration of the spec (its own, or the time of its last
    keyframe) is not negative, the local time handed to the keyframe lookup
    lies between 0 and that duration, looping or not. *)
Theorem localTimeForKeyframes_range time spec start index stagger :
  let duration := durationOf (Spec.duration spec) (Spec.keyframes spec) in
  0 <= duration ->
  0 <= localTimeForKeyframes time spec start index stagger
  /\ localTimeForKeyframes time spec start index stagger <= duration.
Proof.
  intros duration Hd. unfold localTimeForKeyframes. fold duration.
  set (local := time - start - nullish (Spec.delay spec) 0 - index * stagger).
  destruct (Qle_bool local 0) eqn:El; [split; lra|].
  apply Qle_bool_gt in El.
  destruct (Spec.loop spec).
  - set (cycle := duration + nullish (Spec.repeatDelay spec) 0).
    assert (Hin : 0 <= (if Qltb 0 cycle then Qrem local cycle else local)).
    { destruct (Qltb 0 cycle) eqn:Ec; [|lra].
      apply Qltb_lt in Ec. apply Qrem_bounds; lra. }
    set (inCycle := if Qltb 0 cycle then Qrem local cycle else local) in *.
    destruct (Qltb duration inCycle) eqn:Eg; [split; lra|].
    apply Qltb_ge in Eg. split; lra.
  - destruct (Qltb duration local) eqn:Eg; [split; lra|].
    apply Qltb_ge in Eg. split; lra.
Qed.

Lemma localTimeForKeyframes_range_witness :
  let ks := [kf 0 10; kf 500 30; kf 1000 20] in
  let spec := Spec.make true (Some 50) (Some 200) None None (Some ks) in
  0 <= localTimeForKeyframes 5000 spec 0 0 0
  /\ localTimeForKeyframes 5000 spec 0 0 0 <= 1000.
Proof.
  intros ks spec.
  apply (localTimeForKeyframes_range 5000 spec 0 0 0). discriminate.
Defined.

(** ** The segment found for a local time *)

Lemma segment_loop_cons local a b ks :
  segment_loop local (a :: b :: ks)
  = if Qle_bool local (Keyframe.time b) then
      Some (a, b,
            if Qle_bool (Keyframe.time b - Keyframe.time a) 0 then 1
            else (local - Keyframe.time a)
                 / (Keyframe.time b - Keyframe.time a))
    else segment_loop local (b :: ks).
Proof. reflexivity. Qed.

Lemma segment_loop_spec local a ks :
  Keyframe.time a < local ->
  match segment_loop local (a :: ks) with
  | Some (a', b', t) =>
      In a' (a :: ks) /\ In b' ks /\
      Keyframe.time a' < local /\ local <= Keyframe.time b' /\
      t = (local - Keyframe.time a') / (Keyframe.time b' - Keyframe.time a')
  | None => forall k, In k ks -> Keyframe.time k < local
  end.
Proof.
  revert a. induction ks as [|b ks IH]; intros a Ha.
  - simpl. intros k [].
  - rewrite segment_loop_cons.
    destruct (Qle_bool local (Keyframe.time b)) eqn:Eb.
    + apply Qle_bool_iff in Eb.
      assert (Hspan : Qle_bool (Keyframe.time b - Keyframe.time a) 0 = false)
        by (apply Qle_bool_gt; lra).
      rewrite Hspan.
      split; [now left|]. split; [now left|]. split; [assumption|].
      split; [assumption | reflexivity].
    + apply Qle_bool_gt in Eb. specialize (IH b Eb).
      destruct (segment_loop local (b :: ks)) as [[[a' b'] t]|].
      * destruct IH as (Ha' & Hb' & Hlt & Hle & Ht).
        split; [now right|]. split; [now right|]. auto.
      * intros k [<-|Hk]; [assumption | now apply IH].
Qed.

Lemma segmentForKeyframes_spec local k0 rest :
  exists a b t,
    segmentForKeyframes local (k0 :: rest) = Ok (a, b, t) /\
    In a (k0 :: rest) /\ In b (k0 :: rest) /\ 0 <= t /\ t <= 1 /\
    ((local <= Keyframe.time k0 /\ a = k0 /\ b = k0 /\ t = 0) \/
     (Keyframe.time a < local /\ local <= Keyframe.time b /\
      t = (local - Keyframe.time a) / (Keyframe.time b - Keyframe.time a)) \/
     ((forall k, In k (k0 :: rest) -> Keyframe.time k < local) /\
      a = List.last (k0 :: rest) k0 /\ b = a /\ t = 1)).
Proof.
  unfold segmentForKeyframes.
  destruct (Qle_bool local (Keyframe.time k0)) eqn:E0.
  - apply Qle_bool_iff in E0. exists k0, k0, 0.
    split; [reflexivity|]. split; [now left|]. split; [now left|].
    split; [lra|]. split; [lra|]. left. auto.
  - apply Qle_bool_gt in E0.
    pose proof (segment_loop_spec local k0 rest E0) as H.
    destruct (segment_loop local (k0 :: rest)) as [[[a b] t]|].
    + destruct H as (Ha & Hb & Hlt & Hle & Ht).
      exists a, b, t.
      assert (Hspan : 0 < Keyframe.time b - Keyframe.time a) by lra.
      split; [reflexivity|]. split; [assumption|]. split; [now right|].
      split; [rewrite Ht; apply Qdiv_nonneg; lra|].
      split; [rewrite Ht; apply Qdiv_le_one; lra|].
      right. left. auto.
    + exists (List.last (k0 :: rest) k0), (List.last (k0 :: rest) k0), 1.
      assert (Hlast : In (List.last (k0 :: rest) k0) (k0 :: rest)).
      { destruct (exists_last (l := k0 :: rest)) as (l & e & E);
          [discriminate|].
        rewrite E, last_last. apply in_or_app. right. now left. }
      split; [reflexivity|]. split; [assumption|]. split; [assumption|].
      split; [lra|]. split; [lra|].
      right. right. split; [|auto].
      intros k [<-|Hk]; [assumption | now apply H].
Qed.



(** ** Interpolated values stay between the keyframes *)

Lemma lerp_between a b e :
  0 <= e -> e <= 1 ->
  Math_min a b <= lerp a b e /\ lerp a b e <= Math_max a b.
Proof.
  intros H0 H1. unfold Math_min, Math_max, lerp.
  destruct (Qltb b a) eqn:E1; destruct (Qltb a b) eqn:E2;
    try apply Qltb_lt in E1; try apply Qltb_ge in E1;
    try apply Qltb_lt in E2; try apply Qltb_ge in E2; try lra.
  - assert (0 <= (a - b) * e) by (apply Qmult_le_0_compat; lra).
    assert (0 <= (a - b) * (1 - e)) by (apply Qmult_le_0_compat; lra).
    split; lra.
  - assert (0 <= (b - a) * e) by (apply Qmult_le_0_compat; lra).
    assert (0 <= (b - a) * (1 - e)) by (apply Qmult_le_0_compat; lra).
    split; lra.
  - assert (0 <= (b - a) * e) by (apply Qmult_le_0_compat; lra).
    assert (0 <= (b - a) * (1 - e)) by (apply Qmult_le_0_compat; lra).
    split; lra.
Qed.



(** ** Time references are finite and ignore white space *)

Lemma parseOffset_finite base suf : exists q, parseOffset base suf = Num q.
Proof.
  destruct (match_whole offset_re suf) as [m|] eqn:Em.
  - destruct (offset_re_sound _ _ Em) as [v Hv].
    pose proof (parseOffset_numeral base suf v Hv) as H.
    destruct (parseOffset base suf) as [q|]; [now exists q | contradiction].
  - exists base. unfold parseOffset. rewrite Em. now destruct suf.
Qed.

Lemma resolveStart_is_number start prevEnd :
  exists q, resolveStart start prevEnd = Num q.
Proof.
  destruct start as [[q|st]|]; [now exists q | | now exists 0].
  unfold resolveStart.
  destruct (startsWith (strip_spaces st) (js "scene"));
    [apply parseOffset_finite|].
  destruct (startsWith (strip_spaces st) (js "prev.end"));
    [apply parseOffset_finite|].
  now exists 0.
Qed.


Lemma strip_spaces_app a b :
  strip_spaces (a ++ b) = strip_spaces a ++ strip_spaces b.
Proof. apply filter_app. Qed.

Lemma strip_spaces_blank ws : forallb is_space ws = true -> strip_spaces ws = [].
Proof.
  induction ws as [|c ws IH]; simpl; [reflexivity|].
  rewrite andb_true_iff. intros [Hc Hws]. rewrite Hc. simpl. now apply IH.
Qed.

(** White space anywhere inside a string reference changes nothing. *)
Theorem resolveStart_ignores_spaces a ws b prevEnd :
  forallb is_space ws = true ->
  resolveStart (Some (TimeStr (a ++ ws ++ b))) prevEnd
  = resolveStart (Some (TimeStr (a ++ b))) prevEnd.
Proof.
  intros Hws. unfold resolveStart.
  rewrite !strip_spaces_app, (strip_spaces_blank ws Hws). reflexivity.
Qed.

Lemma resolveStart_ignores_spaces_witness :
  resolveStart (Some (TimeStr (js "prev.end" ++ js "  " ++ js "+150"))) 40
  = resolveStart (Some (TimeStr (js "prev.end" ++ js "+150"))) 40.
Proof.
  apply (resolveStart_ignores_spaces (js "prev.end") (js "  ") (js "+150") 40).
  reflexivity.
Defined.

Lemma parseOffset_base base suf :
  number_eq (parseOffset base suf) (add_number base (parseOffset 0 suf)).
Proof.
  unfold parseOffset. destruct suf as [|c suf]; [simpl; ring|].
  destruct (match_whole offset_re (c :: suf)) as [m|]; [|simpl; ring].
  destruct (capture 1 m) as [m1|]; [|exact I].
  destruct (Number m1) as [q|]; simpl; [ring | exact I].
Qed.

(** The baseline [prevEnd] is read only for a [prev.end] reference, where it
    is added to what the reference gives from 0; every other reference
    resolves to the same value whatever [prevEnd] is. *)
Theorem resolveStart_prevEnd st prevEnd :
  (startsWith (strip_spaces st) (js "prev.end") = true ->
   number_eq (resolveStart (Some (TimeStr st)) prevEnd)
             (add_number prevEnd (resolveStart (Some (TimeStr st)) 0))) /\
  (startsWith (strip_spaces st) (js "prev.end") = false ->
   resolveStart (Some (TimeStr st)) prevEnd
   = resolveStart (Some (TimeStr st)) 0).
Proof.
  unfold resolveStart. split; intros H.
  - destruct (startsWith (strip_spaces st) (js "scene")) eqn:Es.
    + apply startsWith_iff in Es as [suf Es]. rewrite Es in H. discriminate.
    + rewrite H. apply parseOffset_base.
  - rewrite H. reflexivity.
Qed.

Lemma resolveStart_prevEnd_witness :
  number_eq (resolveStart (Some (TimeStr (js "prev.end+150"))) 40)
            (add_number 40 (resolveStart (Some (TimeStr (js "prev.end+150"))) 0))
  /\ resolveStart (Some (TimeStr (js "scene+150"))) 40
     = resolveStart (Some (TimeStr (js "scene+150"))) 0.
Proof.
  split.
  - apply (resolveStart_prevEnd (js "prev.end+150") 40). reflexivity.
  - apply (resolveStart_prevEnd (js "scene+150") 40). reflexivity.
Defined.

(** ** Groups and sequences *)

Section FlowGroupFacts.
Context {ShapeBuilder ShapeInstance : Type}.
Variable estimateDuration : ShapeBuilder -> Q.
Variable evaluate : ShapeBuilder -> Q -> list ShapeInstance.

(** [on(start, ...items)] is a gate and a clock shift: the reference
    resolves to a number [s]; before [s] the group yields nothing, and from
    [s] on it yields its items evaluated at [time - s]. *)
Theorem on_gate start items :
  exists s,
    resolveStart (Some start) 0 = Num s /\
    forall time,
      (time < s ->
       FlowGroup.Group_evaluate evaluate (FlowGroup.on start items) time = [])
      /\
      (s <= time ->
       FlowGroup.Group_evaluate evaluate (FlowGroup.on start items) time
       = flattenItems evaluate items (time - s) s).
Proof.
  destruct (resolveStart_is_number (Some start) 0) as [s Hs].
  exists s. split; [exact Hs|].
  intros time. unfold FlowGroup.on. rewrite Hs.
  unfold FlowGroup.Group_evaluate. simpl. split; intros H.
  - apply Qle_bool_gt in H. now rewrite H.
  - apply Qle_bool_iff in H. now rewrite H.
Qed.

(** Items flatten in input order: the output for two lists of items put
    together is the output of the first followed by that of the second, and
    an array of builders gives what its builders give one by one. *)
Theorem parallel_in_order xs ys bs time :
  FlowGroup.Group_evaluate evaluate (FlowGroup.parallel (xs ++ ys)) time
  = FlowGroup.Group_evaluate evaluate (FlowGroup.parallel xs) time
    ++ FlowGroup.Group_evaluate evaluate (FlowGroup.parallel ys) time
  /\ FlowGroup.Group_evaluate evaluate (FlowGroup.parallel [Many bs]) time
     = FlowGroup.Group_evaluate evaluate
         (FlowGroup.parallel (map Single bs)) time.
Proof.
  unfold FlowGroup.Group_evaluate, FlowGroup.parallel, flattenItems. simpl.
  split; [apply flat_map_app|].
  rewrite app_nil_r. induction bs as [|b bs IH]; simpl; [reflexivity|].
  now rewrite IH.
Qed.

Lemma fold_max_ge bs acc :
  acc <= fold_left (fun a b => Math_max a (estimateDuration b)) bs acc.
Proof.
  revert acc. induction bs as [|b bs IH]; intros acc; simpl; [lra|].
  specialize (IH (Math_max acc (estimateDuration b))).
  unfold Math_max in *.
  destruct (Qltb acc (estimateDuration b)) eqn:E;
    [apply Qltb_lt in E | apply Qltb_ge in E]; lra.
Qed.

Lemma fold_max_member bs acc b :
  In b bs ->
  estimateDuration b
  <= fold_left (fun a b => Math_max a (estimateDuration b)) bs acc.
Proof.
  revert acc. induction bs as [|b' bs IH]; intros acc Hin; [destruct Hin|].
  simpl. destruct Hin as [->|Hin]; [|now apply IH].
  pose proof (fold_max_ge bs (Math_max acc (estimateDuration b))) as H.
  unfold Math_max in *.
  destruct (Qltb acc (estimateDuration b)) eqn:E;
    [apply Qltb_lt in E | apply Qltb_ge in E]; lra.
Qed.

(** The estimated duration of an array of builders is never negative and
    is at least the estimate of each builder in it. *)
Theorem durationOfItem_array bs :
  0 <= durationOfItem estimateDuration (Many bs) /\
  forall b, In b bs ->
    estimateDuration b <= durationOfItem estimateDuration (Many bs).
Proof.
  simpl. split; [apply fold_max_ge|].
  intros b Hb. now apply fold_max_member.
Qed.

Lemma sequence_entries_offsets_ge cursor items e :
  (forall it, In it items -> 0 <= durationOfItem estimateDuration it) ->
  In e (sequence_entries estimateDuration cursor items) ->
  cursor <= offset e.
Proof.
  revert cursor. induction items as [|it rest IH]; intros cursor Hpos Hin.
  - destruct Hin.
  - simpl in Hin. destruct Hin as [<-|Hin]; [simpl; lra|].
    assert (H0 : 0 <= durationOfItem estimateDuration it)
      by (apply Hpos; now left).
    assert (Hrest : forall it', In it' rest ->
                      0 <= durationOfItem estimateDuration it')
      by (intros it' Hit; apply Hpos; now right).
    specialize (IH _ Hrest Hin). lra.
Qed.

Lemma sequence_entries_late cursor items time :
  (forall it, In it items -> 0 <= durationOfItem estimateDuration it) ->
  time < cursor ->
  SequenceGroup_evaluate evaluate
    (sequence_entries estimateDuration cursor items) time = [].
Proof.
  intros Hpos Ht. unfold SequenceGroup_evaluate.
  assert (Hall : forall e, In e (sequence_entries estimateDuration cursor items) ->
                   entry_output evaluate time e = []).
  { intros e He. apply entry_output_early.
    pose proof (sequence_entries_offsets_ge cursor items e Hpos He). lra. }
  induction (sequence_entries estimateDuration cursor items) as [|e es IH];
    [reflexivity|].
  simpl. rewrite (Hall e (or_introl eq_refl)). simpl.
  apply IH. intros e' He'. apply Hall. now right.
Qed.

Lemma sequence_entries_due_prefix cursor items i e time :
  (forall it, In it items -> 0 <= durationOfItem estimateDuration it) ->
  nth_error (sequence_entries estimateDuration cursor items) i = Some e ->
  time < offset e ->
  SequenceGroup_evaluate evaluate
    (sequence_entries estimateDuration cursor items) time
  = SequenceGroup_evaluate evaluate
      (firstn i (sequence_entries estimateDuration cursor items)) time.
Proof.
  revert i cursor.
  induction items as [|it rest IH]; intros i cursor Hpos Hn Ht.
  - destruct i; discriminate.
  - assert (Hrest : forall it', In it' rest ->
                      0 <= durationOfItem estimateDuration it')
      by (intros it' Hit; apply Hpos; now right).
    destruct i as [|i]; simpl in Hn.
    + injection Hn as <-. simpl in Ht.
      change (SequenceGroup_evaluate evaluate
                (sequence_entries estimateDuration cursor (it :: rest)) time
              = []).
      apply sequence_entries_late; assumption.
    + cbn [sequence_entries firstn]. unfold SequenceGroup_evaluate in *.
      cbn [flat_map]. f_equal. now apply IH.
Qed.

(** When no item has a negative estimated duration, the entries of a
    sequence become due in order: if the entry at position [i] is not yet
    due at [time], no later entry is, and the output is that of the first
    [i] entries alone. *)
Theorem sequence_due_prefix items i e time :
  (forall it, In it items -> 0 <= durationOfItem estimateDuration it) ->
  nth_error (sequence estimateDuration items) i = Some e ->
  time < offset e ->
  SequenceGroup_evaluate evaluate (sequence estimateDuration items) time
  = SequenceGroup_evaluate evaluate
      (firstn i (sequence estimateDuration items)) time.
Proof.
  apply sequence_entries_due_prefix.
Qed.
End FlowGroupFacts.

Lemma on_gate_witness :
  let evaluate (b : Q) (t : Q) := [t] in
  exists s,
    resolveStart (Some (TimeStr (js "scene+200"))) 0 = Num s /\
    FlowGroup.Group_evaluate evaluate
      (FlowGroup.on (TimeStr (js "scene+200")) [Single 1]) 199 = [] /\
    FlowGroup.Group_evaluate evaluate
      (FlowGroup.on (TimeStr (js "scene+200")) [Single 1]) 200 = [200 - s].
Proof.
  intros evaluate.
  destruct (on_gate evaluate (TimeStr (js "scene+200")) [Single 1])
    as (s & Hs & H).
  exists s. split; [exact Hs|].
  assert (E : s = 200) by (vm_compute in Hs; congruence).
  split.
  - apply (proj1 (H 199)). rewrite E. reflexivity.
  - rewrite (proj2 (H 200)); [reflexivity|]. rewrite E. discriminate.
Defined.

Lemma durationOfItem_array_witness :
  let estimate (b : Q) := b in
  0 <= durationOfItem estimate (Many [300; -5; 120]) /\
  300 <= durationOfItem estimate (Many [300; -5; 120]).
Proof.
  intros estimate. split.
  - apply (proj1 (durationOfItem_array estimate [300; -5; 120])).
  - apply (proj2 (durationOfItem_array estimate [300; -5; 120]) 300).
    now left.
Defined.

Lemma sequence_entries_nth_witness :
  let estimate (b : Q) := b in
  exists e,
    nth_error (sequence estimate [Single 100; Many [30; 50]; Single 7]) 2
    = Some e /\
    nth_error [Single 100; Many [30; 50]; Single 7] 2 = Some (item e) /\
    offset e == 150.
Proof.
  intros estimate.
  exists {| offset := 0 + 100 + Math_max (Math_max 0 30) 50;
            item := Single 7 |}.
  split; [reflexivity|].
  destruct (sequence_entries_nth estimate 0
              [Single 100; Many [30; 50]; Single 7] 2
              {| offset := 0 + 100 + Math_max (Math_max 0 30) 50;
                 item := Single 7 |} eq_refl) as [Hit Hoff].
  split; [exact Hit|]. rewrite Hoff. reflexivity.
Defined.

Lemma sequence_due_prefix_witness :
  let estimate (b : Q) := b in
  let evaluate (b : Q) (t : Q) := [t] in
  SequenceGroup_evaluate evaluate
    (sequence estimate [Single 100; Single 50; Single 7]) 120
  = SequenceGroup_evaluate evaluate
      (firstn 2 (sequence estimate [Single 100; Single 50; Single 7])) 120.
Proof.
  intros estimate evaluate.
  apply (sequence_due_prefix estimate evaluate
           [Single 100; Single 50; Single 7] 2
           {| offset := 0 + 100 + 50; item := Single 7 |}).
  - intros it [<-|[<-|[<-|[]]]]; discriminate.
  - reflexivity.
  - reflexivity.
Defined.

(** ** Hexadecimal colours *)

Ltac each_char c := destruct c as [[] [] [] [] [] [] [] []].

Lemma is_hex_facts c :
  is_hex c = true ->
  is_space c = false /\ is_hex (lower_char c) = true /\
  hex_val (lower_char c) = hex_val c /\
  Ascii.eqb c "-"%char = false /\ Ascii.eqb c "+"%char = false /\
  Ascii.eqb c "x"%char = false /\ Ascii.eqb c "X"%char = false.
Proof.
  each_char c; vm_compute; intros H; try discriminate H;
    repeat split; reflexivity.
Qed.

Lemma parseInt16_pair c d :
  is_hex c = true -> is_hex d = true ->
  parseInt16 [c; d] = Num (inject_Z (16 * hex_value c + hex_value d)).
Proof.
  intros Hc Hd.
  destruct (is_hex_facts c Hc) as (Hsp & _ & _ & Hm & Hp & _).
  destruct (is_hex_facts d Hd) as (_ & _ & _ & _ & _ & Hx & HX).
  unfold parseInt16. cbn [trim_start]. rewrite Hsp, Hm, Hp.
  unfold strip_0x. rewrite Hx, HX, andb_false_r.
  cbn [span]. rewrite Hc, Hd. cbn [span].
  unfold hex_digits_val, hex_value. cbn [fold_left].
  reflexivity.
Qed.

Lemma get_property_hash s : get_property named ("#"%char :: s) = Absent.
Proof. reflexivity. Qed.

Lemma hex_tail_trim c front :
  is_hex c = true ->
  trim ("#"%char :: front ++ [c]) = "#"%char :: front ++ [c].
Proof.
  intros Hc. destruct (is_hex_facts c Hc) as (Hsp & _).
  apply (trim_id _ _ c); [reflexivity | exact Hsp |].
  rewrite app_comm_cons, rev_unit. reflexivity.
Qed.

(** A [#] followed by six hexadecimal digits, in either letter case, parses
    to the three two-digit values; the three-digit form parses to the same
    colour as the six-digit form with every digit doubled. *)
Theorem parseColor_hex c1 c2 c3 c4 c5 c6 :
  is_hex c1 = true -> is_hex c2 = true -> is_hex c3 = true ->
  is_hex c4 = true -> is_hex c5 = true -> is_hex c6 = true ->
  parseColor ("#"%char :: [c1; c2; c3; c4; c5; c6])
  = Ok (Some (int_rgb (16 * hex_value c1 + hex_value c2)
                      (16 * hex_value c3 + hex_value c4)
                      (16 * hex_value c5 + hex_value c6)))
  /\ parseColor ("#"%char :: [c1; c3; c5])
     = parseColor ("#"%char :: [c1; c1; c3; c3; c5; c5]).
Proof.
  intros H1 H2 H3 H4 H5 H6.
  destruct (is_hex_facts c1 H1) as (_ & L1 & V1 & _).
  destruct (is_hex_facts c2 H2) as (_ & L2 & V2 & _).
  destruct (is_hex_facts c3 H3) as (_ & L3 & V3 & _).
  destruct (is_hex_facts c4 H4) as (_ & L4 & V4 & _).
  destruct (is_hex_facts c5 H5) as (_ & L5 & V5 & _).
  destruct (is_hex_facts c6 H6) as (_ & L6 & V6 & _).
  assert (six : forall a b c d e f,
            is_hex a = true -> is_hex b = true -> is_hex c = true ->
            is_hex d = true -> is_hex e = true -> is_hex f = true ->
            parseColor ("#"%char :: [a; b; c; d; e; f])
            = Ok (Some {| chan_r := parseInt16 [lower_char a; lower_char b];
                          chan_g := parseInt16 [lower_char c; lower_char d];
                          chan_b := parseInt16 [lower_char e; lower_char f] |})).
  { intros a b c d e f _ _ _ _ _ Hf. unfold parseColor.
    pose proof (hex_tail_trim f [a; b; c; d; e] Hf) as Ht.
    cbn [app] in Ht. rewrite Ht.
    cbn [toLowerCase map app]. change (lower_char "#"%char) with "#"%char.
    rewrite get_property_hash. reflexivity. }
  assert (three : parseColor ("#"%char :: [c1; c3; c5])
            = Ok (Some {| chan_r := parseInt16 [lower_char c1; lower_char c1];
                          chan_g := parseInt16 [lower_char c3; lower_char c3];
                          chan_b := parseInt16 [lower_char c5; lower_char c5] |})).
  { unfold parseColor.
    pose proof (hex_tail_trim c5 [c1; c3] H5) as Ht.
    cbn [app] in Ht. rewrite Ht.
    cbn [toLowerCase map app]. change (lower_char "#"%char) with "#"%char.
    rewrite get_property_hash. reflexivity. }
  split.
  - rewrite six by assumption.
    rewrite !parseInt16_pair by assumption.
    unfold hex_value. rewrite V1, V2, V3, V4, V5, V6. reflexivity.
  - rewrite three, six by assumption. reflexivity.
Qed.

Lemma parseColor_hex_witness :
  parseColor (js "#Ff8000") = Ok (Some (int_rgb 255 128 0)) /\
  parseColor (js "#F80") = parseColor (js "#FF8800").
Proof.
  destruct (parseColor_hex "F" "f" "8" "0" "0" "0") as [H _];
    try reflexivity.
  destruct (parseColor_hex "F" "F" "8" "8" "0" "0") as [_ H'];
    try reflexivity.
  split; [exact H | exact H'].
Defined.

(** ** Letter case and surrounding white space *)

Lemma lower_char_facts c :
  is_space (lower_char c) = is_space c /\
  lower_char (lower_char c) = lower_char c.
Proof. each_char c; vm_compute; split; reflexivity. Qed.

Lemma trim_start_blank ws s :
  forallb is_space ws = true -> trim_start (ws ++ s) = trim_start s.
Proof.
  induction ws as [|c ws IH]; simpl; [reflexivity|].
  rewrite andb_true_iff. intros [Hc Hws]. rewrite Hc. now apply IH.
Qed.

Lemma forallb_rev {A} (p : A -> bool) l :
  forallb p l = true -> forallb p (rev l) = true.
Proof.
  rewrite !forallb_forall. intros H x Hx. apply H. now apply in_rev.
Qed.

Lemma trim_blank_end s ws :
  forallb is_space ws = true -> trim (s ++ ws) = trim s.
Proof.
  intros Hws. unfold trim. f_equal.
  induction s as [|c s IH]; simpl.
  - rewrite <- (app_nil_r ws) at 1.
    rewrite (trim_start_blank ws [] Hws). reflexivity.
  - destruct (is_space c); [exact IH|].
    change (c :: s ++ ws) with ((c :: s) ++ ws).
    rewrite rev_app_distr. apply trim_start_blank. now apply forallb_rev.
Qed.

Lemma trim_blank ws1 s ws2 :
  forallb is_space ws1 = true -> forallb is_space ws2 = true ->
  trim (ws1 ++ s ++ ws2) = trim s.
Proof.
  intros H1 H2. rewrite app_assoc, (trim_blank_end _ ws2 H2).
  unfold trim. now rewrite (trim_start_blank ws1 s H1).
Qed.

Lemma trim_start_lower s :
  trim_start (toLowerCase s) = toLowerCase (trim_start s).
Proof.
  induction s as [|c s IH]; simpl; [reflexivity|].
  rewrite (proj1 (lower_char_facts c)).
  destruct (is_space c); [exact IH | reflexivity].
Qed.

Lemma trim_lower s : trim (toLowerCase s) = toLowerCase (trim s).
Proof.
  assert (Hrev : forall l, rev (toLowerCase l) = toLowerCase (rev l))
    by (intros l; unfold toLowerCase; now rewrite map_rev).
  unfold trim.
  now rewrite trim_start_lower, Hrev, trim_start_lower, Hrev.
Qed.

Lemma toLowerCase_idem s : toLowerCase (toLowerCase s) = toLowerCase s.
Proof.
  unfold toLowerCase. rewrite map_map. apply map_ext.
  intros c. apply lower_char_facts.
Qed.

(** [parseColor] reads its input without regard to white space around it or
    to letter case: padding with white space changes nothing, and two inputs
    that agree once in lower case get the same answer. *)
Theorem parseColor_insensitive :
  (forall ws1 s ws2,
     forallb is_space ws1 = true -> forallb is_space ws2 = true ->
     parseColor (ws1 ++ s ++ ws2) = parseColor s) /\
  (forall s1 s2,
     toLowerCase s1 = toLowerCase s2 -> parseColor s1 = parseColor s2).
Proof.
  split.
  - intros ws1 s ws2 H1 H2. unfold parseColor.
    now rewrite (trim_blank ws1 s ws2 H1 H2).
  - intros s1 s2 H. unfold parseColor.
    rewrite <- !trim_lower, H. reflexivity.
Qed.

Lemma parseColor_insensitive_witness :
  parseColor (js "  " ++ js "red" ++ js " ") = parseColor (js "red") /\
  parseColor (js "#FFaa00") = parseColor (js "#ffAA00").
Proof.
  split.
  - apply (proj1 parseColor_insensitive (js "  ") (js "red") (js " "));
      reflexivity.
  - apply (proj2 parseColor_insensitive (js "#FFaa00") (js "#ffAA00")).
    reflexivity.
Defined.

(** ** Interpolating between two colours *)

Lemma Qfloor_half (z : Z) (q : Q) : q == inject_Z z -> Qfloor (q + (1 # 2)) = z.
Proof.
  intros H. apply Qfloor_unique.
  - lra.
  - rewrite inject_Z_plus. change (inject_Z 1) with 1. lra.
Qed.

Lemma lerp_channel_between x y t :
  0 <= t -> t <= 1 ->
  (Z.min x y <= lerp_channel x y t <= Z.max x y)%Z.
Proof.
  intros H0 H1. unfold lerp_channel.
  set (v := lerp (inject_Z x) (inject_Z y) t).
  assert (Hlo : inject_Z (Z.min x y) <= v /\ v <= inject_Z (Z.max x y)).
  { unfold v, lerp.
    assert (Hx : inject_Z (Z.min x y) <= inject_Z x
                 /\ inject_Z (Z.min x y) <= inject_Z y
                 /\ inject_Z x <= inject_Z (Z.max x y)
                 /\ inject_Z y <= inject_Z (Z.max x y)).
    { rewrite <- !Zle_Qle. lia. }
    destruct Hx as (A & B & C & D).
    set (a := inject_Z x) in *. set (b := inject_Z y) in *.
    set (lo := inject_Z (Z.min x y)) in *.
    set (hi := inject_Z (Z.max x y)) in *.
    assert (0 <= (a - lo) * (1 - t)) by (apply Qmult_le_0_compat; lra).
    assert (0 <= (b - lo) * t) by (apply Qmult_le_0_compat; lra).
    assert (0 <= (hi - a) * (1 - t)) by (apply Qmult_le_0_compat; lra).
    assert (0 <= (hi - b) * t) by (apply Qmult_le_0_compat; lra).
    split; lra. }
  destruct Hlo as [Hlo Hhi]. split.
  - assert (H : inject_Z (Z.min x y) <= v + (1 # 2)) by lra.
    apply Qfloor_resp_le in H. now rewrite Qfloor_Z in H.
  - pose proof (Qfloor_le (v + (1 # 2))) as H.
    assert (H' : inject_Z (Qfloor (v + (1 # 2))) < inject_Z (Z.max x y + 1)).
    { rewrite inject_Z_plus. change (inject_Z 1) with 1. lra. }
    rewrite <- Zlt_Qlt in H'. lia.
Qed.

Lemma lerp_channel_start x y t : t == 0 -> lerp_channel x y t = x.
Proof.
  intros Ht. unfold lerp_channel, lerp. apply Qfloor_half. rewrite Ht. ring.
Qed.

Lemma lerp_channel_end x y t : t == 1 -> lerp_channel x y t = y.
Proof.
  intros Ht. unfold lerp_channel, lerp. apply Qfloor_half. rewrite Ht. ring.
Qed.



(** ** Timeline *)

Lemma Timeline_clamp_range tl ms d :
  Timeline.duration tl = Some d -> 0 <= d ->
  0 <= Timeline.clamp tl ms /\ Timeline.clamp tl ms <= d.
Proof.
  intros Hd H0. unfold Timeline.clamp. rewrite Hd.
  destruct (Qltb ms 0) eqn:E1; [split; lra|]. apply Qltb_ge in E1.
  destruct (Qltb d ms) eqn:E2; [split; lra|]. apply Qltb_ge in E2.
  split; lra.
Qed.

Lemma Timeline_clamp_idem tl ms :
  Timeline.sound tl ->
  Timeline.clamp tl (Timeline.clamp tl ms) = Timeline.clamp tl ms.
Proof.
  unfold Timeline.sound, Timeline.clamp.
  destruct (Timeline.duration tl) as [d|]; [|reflexivity]. intros Hd.
  destruct (Qltb ms 0) eqn:E1.
  - change (Qltb 0 0) with false. cbv iota.
    assert (E : Qltb d 0 = false) by (apply Qltb_ge; exact Hd).
    now rewrite E.
  - destruct (Qltb d ms) eqn:E2.
    + assert (E : Qltb d 0 = false) by (apply Qltb_ge; exact Hd).
      assert (E' : Qltb d d = false) by (apply Qltb_ge; lra).
      now rewrite E, E'.
    + now rewrite E1, E2.
Qed.

Lemma Timeline_clamp_compat tl x y :
  x == y -> Timeline.clamp tl x == Timeline.clamp tl y.
Proof.
  intros H. unfold Timeline.clamp.
  destruct (Timeline.duration tl) as [d|]; [|exact H].
  rewrite (Qltb_compat x 0 y 0 H (Qeq_refl _)).
  rewrite (Qltb_compat d x d y (Qeq_refl _) H).
  destruct (Qltb y 0); [reflexivity|]. destruct (Qltb d y); [reflexivity|].
  exact H.
Qed.

(** With a duration set that is not negative, the time reported by [now]
    lies between 0 and the duration, whatever the clock, the time scale and
    the state of the timeline. *)
Theorem Timeline_now_range tl clock d :
  Timeline.duration tl = Some d -> 0 <= d ->
  0 <= Timeline.now tl clock /\ Timeline.now tl clock <= d.
Proof.
  intros Hd H0. unfold Timeline.now.
  destruct (Timeline.playing tl); now apply Timeline_clamp_range.
Qed.

Lemma Timeline_now_range_witness :
  let tl := Timeline.make 100 0 true (Some 4000) 2 in
  0 <= Timeline.now tl 9000 /\ Timeline.now tl 9000 <= 4000.
Proof.
  intros tl. apply (Timeline_now_range tl 9000 4000); [reflexivity|].
  discriminate.
Defined.

(** Pausing freezes the timeline at the time it shows: after [pause] at
    clock [c], [now] gives at every later clock reading the value [now] had
    at [c], and a second [pause] changes nothing. *)
Theorem Timeline_pause_freezes tl c c' :
  Timeline.sound tl ->
  Timeline.now (Timeline.pause tl c) c' = Timeline.now tl c /\
  Timeline.pause (Timeline.pause tl c) c' = Timeline.pause tl c.
Proof.
  intros Hs. unfold Timeline.pause.
  destruct (Timeline.playing tl) eqn:Ep; simpl.
  - split; [|reflexivity].
    unfold Timeline.now at 1. simpl.
    unfold Timeline.now. rewrite Ep.
    unfold Timeline.clamp at 1. simpl.
    fold (Timeline.clamp tl
            (Timeline.clamp tl
               ((c - Timeline.start tl) * Timeline.timeScale tl
                + Timeline.offset tl))).
    now apply Timeline_clamp_idem.
  - split; [|now rewrite Ep].
    unfold Timeline.now. now rewrite Ep.
Qed.

Lemma Timeline_pause_freezes_witness :
  let tl := Timeline.make 100 0 true (Some 4000) 2 in
  Timeline.now (Timeline.pause tl 600) 99999 = Timeline.now tl 600.
Proof.
  intros tl. apply (Timeline_pause_freezes tl 600 99999). discriminate.
Defined.

(** Resuming continues from the frozen time: when a playing timeline is
    paused at [c1] and played again at [c2], the time shown [dt] later is the
    paused time advanced by [dt * timeScale] and clamped; at [c2] itself it
    is the paused time. *)
Theorem Timeline_resume tl c1 c2 dt :
  Timeline.sound tl -> Timeline.playing tl = true ->
  Timeline.now (Timeline.play (Timeline.pause tl c1) c2) (c2 + dt)
  == Timeline.clamp tl (dt * Timeline.timeScale tl + Timeline.now tl c1)
  /\ Timeline.now (Timeline.play (Timeline.pause tl c1) c2) c2
     == Timeline.now tl c1.
Proof.
  intros Hs Hp.
  assert (Hgen : forall x,
            Timeline.now (Timeline.play (Timeline.pause tl c1) c2) x
            = Timeline.clamp tl
                ((x - c2) * Timeline.timeScale tl + Timeline.now tl c1)).
  { intros x. unfold Timeline.play, Timeline.pause. rewrite Hp. reflexivity. }
  split.
  - rewrite Hgen. apply Timeline_clamp_compat. ring.
  - rewrite Hgen.
    rewrite (Timeline_clamp_compat tl _ (Timeline.now tl c1)) by ring.
    unfold Timeline.now. rewrite Hp.
    rewrite Timeline_clamp_idem; [reflexivity | exact Hs].
Qed.

Lemma Timeline_resume_witness :
  let tl := Timeline.make 100 0 true (Some 4000) 2 in
  Timeline.now (Timeline.play (Timeline.pause tl 600) 7000) (7000 + 250)
  == Timeline.clamp tl (250 * 2 + Timeline.now tl 600)
  /\ Timeline.now (Timeline.play (Timeline.pause tl 600) 7000) 7000
     == Timeline.now tl 600.
Proof.
  intros tl. apply (Timeline_resume tl 600 7000 250);
    [discriminate | reflexivity].
Defined.

(** Seeking shows the requested time, clamped: right after [seek(ms)],
    read at the same clock, [now] is [clamp(ms)], playing or paused; and
    [scrub(ms)] on a paused timeline leaves it paused at [clamp(ms)] for
    every later clock reading. *)
Theorem Timeline_seek tl ms c c1 c2 c' :
  Timeline.sound tl ->
  Timeline.now (Timeline.seek tl ms c) c == Timeline.clamp tl ms /\
  (Timeline.playing tl = false ->
   Timeline.now (Timeline.scrub tl ms c1 c2) c' = Timeline.clamp tl ms).
Proof.
  intros Hs. split.
  - unfold Timeline.seek.
    destruct (Timeline.playing tl) eqn:Ep; unfold Timeline.now; simpl.
    + change (Timeline.clamp
                (Timeline.make c (Timeline.clamp tl ms) true
                   (Timeline.duration tl) (Timeline.timeScale tl)))
        with (Timeline.clamp tl).
      rewrite (Timeline_clamp_compat tl _ (Timeline.clamp tl ms)) by ring.
      now rewrite Timeline_clamp_idem.
    + change (Timeline.clamp
                (Timeline.make (Timeline.start tl) (Timeline.clamp tl ms)
                   false (Timeline.duration tl) (Timeline.timeScale tl)))
        with (Timeline.clamp tl).
      now rewrite Timeline_clamp_idem.
  - intros Ep. unfold Timeline.scrub, Timeline.seek, Timeline.pause.
    rewrite Ep. simpl. unfold Timeline.now. simpl.
    change (Timeline.clamp
              (Timeline.make (Timeline.start tl) (Timeline.clamp tl ms)
                 false (Timeline.duration tl) (Timeline.timeScale tl)))
      with (Timeline.clamp tl).
    now apply Timeline_clamp_idem.
Qed.

Lemma Timeline_seek_witness :
  let tl := Timeline.make 100 0 true (Some 4000) 2 in
  Timeline.now (Timeline.seek tl 5000 900) 900 == Timeline.clamp tl 5000.
Proof.
  intros tl. apply (Timeline_seek tl 5000 900 0 0 0). discriminate.
Defined.

(** ** Diagnostics store *)

Lemma str_eqb_refl s : str_eqb s s = true.
Proof.
  induction s as [|c s IH]; simpl; [reflexivity|].
  now rewrite Ascii.eqb_refl, IH.
Qed.

(** A key is reported once: a second [addOnce] with the same key, whatever
    its level, message and time, leaves the store as it is, listeners not
    called; the first one adds exactly one diagnostic if the key is new and
    none otherwise.  [clear] forgets the keys along with the diagnostics:
    after it, an [addOnce] with any key is stored again and is the only
    diagnostic of the store. *)
Theorem Diagnostics_addOnce_once key lv1 msg1 det1 now1 lv2 msg2 det2 now2 s :
  Diagnostics.addOnce key lv2 msg2 det2 now2
    (Diagnostics.addOnce key lv1 msg1 det1 now1 s)
  = Diagnostics.addOnce key lv1 msg1 det1 now1 s
  /\ List.length (Diagnostics.getAll
                    (Diagnostics.addOnce key lv1 msg1 det1 now1 s))
     = (List.length (Diagnostics.getAll s)
        + if Diagnostics.has_key key s then 0 else 1)%nat
  /\ Diagnostics.getAll
       (Diagnostics.addOnce key lv2 msg2 det2 now2
          (Diagnostics.clear (Diagnostics.addOnce key lv1 msg1 det1 now1 s)))
     = [ {| Diagnostics.level := lv2; Diagnostics.message := msg2;
            Diagnostics.detail := det2; Diagnostics.time := now2 |} ].
Proof.
  split; [|split; [|reflexivity]].
  - unfold Diagnostics.addOnce at 2 3.
    destruct (Diagnostics.has_key key s) eqn:Eh.
    + unfold Diagnostics.addOnce. now rewrite Eh.
    + unfold Diagnostics.addOnce.
      unfold Diagnostics.has_key at 1. simpl.
      now rewrite str_eqb_refl.
  - unfold Diagnostics.addOnce.
    destruct (Diagnostics.has_key key s) eqn:Eh; [simpl; lia|].
    unfold Diagnostics.getAll. simpl. rewrite length_app. reflexivity.
Qed.

Lemma calls_to_app l (xs ys : list (Diagnostics.Listener * list Diagnostics.Diagnostic)) :
  filter (fun c => Nat.eqb (fst c) l) (xs ++ ys)
  = filter (fun c => Nat.eqb (fst c) l) xs
    ++ filter (fun c => Nat.eqb (fst c) l) ys.
Proof. apply filter_app. Qed.

Lemma calls_to_others l snapshot ls :
  ~ In l ls ->
  filter (fun c : Diagnostics.Listener * list Diagnostics.Diagnostic =>
            Nat.eqb (fst c) l)
         (map (fun l' => (l', snapshot)) ls) = [].
Proof.
  induction ls as [|l' ls IH]; intros Hn; simpl; [reflexivity|].
  destruct (Nat.eqb l' l) eqn:E.
  - apply Nat.eqb_eq in E. exfalso. apply Hn. now left.
  - apply IH. intros H. apply Hn. now right.
Qed.

Lemma not_in_off l ls :
  ~ In l (filter (fun l' => negb (Nat.eqb l' l)) ls).
Proof.
  intros H. apply filter_In in H as [_ H].
  now rewrite Nat.eqb_refl in H.
Qed.

(** A listener that has unsubscribed is not called again: after [off], an
    [add], an [addOnce] or a [clear] makes no call to it. *)
Theorem Diagnostics_off_silences l key lv msg det now s :
  let s' := Diagnostics.off l s in
  Diagnostics.calls_to l (Diagnostics.add lv msg det now s')
  = Diagnostics.calls_to l s /\
  Diagnostics.calls_to l (Diagnostics.addOnce key lv msg det now s')
  = Diagnostics.calls_to l s /\
  Diagnostics.calls_to l (Diagnostics.clear s') = Diagnostics.calls_to l s.
Proof.
  intros s'.
  assert (Hadd : forall k,
            Diagnostics.calls_to l
              (Diagnostics.add lv msg det now
                 {| Diagnostics.items := Diagnostics.items s';
                    Diagnostics.listeners := Diagnostics.listeners s';
                    Diagnostics.keys := k;
                    Diagnostics.notified := Diagnostics.notified s' |})
            = Diagnostics.calls_to l s).
  { intros k. unfold Diagnostics.calls_to, Diagnostics.add, Diagnostics.emit.
    simpl. rewrite calls_to_app, calls_to_others, app_nil_r;
      [reflexivity | apply not_in_off]. }
  split; [|split].
  - apply (Hadd (Diagnostics.keys s')).
  - unfold Diagnostics.addOnce.
    destruct (Diagnostics.has_key key s'); [reflexivity | apply Hadd].
  - unfold Diagnostics.calls_to, Diagnostics.clear, Diagnostics.emit.
    simpl. rewrite calls_to_app, calls_to_others, app_nil_r;
      [reflexivity | apply not_in_off].
Qed.

(** ** Radii kept in range *)

Lemma Qeq_eq_weak (a b : Q) : a = b -> a == b.
Proof. intros ->. reflexivity. Qed.

Lemma Math_max_spec a b :
  a <= Math_max a b /\ b <= Math_max a b /\
  (Math_max a b = a \/ Math_max a b = b).
Proof.
  unfold Math_max. destruct (Qltb a b) eqn:E;
    [apply Qltb_lt in E | apply Qltb_ge in E];
    (split; [lra|]; split; [lra|]); auto.
Qed.

Lemma Math_min_spec a b :
  Math_min a b <= a /\ Math_min a b <= b /\
  (Math_min a b = a \/ Math_min a b = b).
Proof.
  unfold Math_min. destruct (Qltb b a) eqn:E;
    [apply Qltb_lt in E | apply Qltb_ge in E];
    (split; [lra|]; split; [lra|]); auto.
Qed.

Lemma clamp_between lo hi v :
  lo <= hi ->
  lo <= Math_max lo (Math_min v hi) /\ Math_max lo (Math_min v hi) <= hi /\
  (lo <= v -> v <= hi -> Math_max lo (Math_min v hi) == v).
Proof.
  intros H.
  destruct (Math_min_spec v hi) as (A & B & C).
  destruct (Math_max_spec lo (Math_min v hi)) as (D & E & F).
  set (mn := Math_min v hi) in *. set (mx := Math_max lo mn) in *.
  split; [lra|]. split.
  - destruct F as [F | F]; rewrite F; lra.
  - intros Hlo Hhi.
    destruct F as [F | F]; destruct C as [C | C];
      rewrite F in *; rewrite ?C in *; lra.
Qed.

(** The inner radius a [Ring] or an [Arc] ends up with lies between 0 and
    the outer radius, whatever was asked for (an inner radius or a
    thickness, of any sign or size), provided the outer radius is not
    negative; an inner radius already in that range is kept. *)
Theorem inner_radius_clamped outer inner startAngle endAngle options :
  0 <= outer ->
  (0 <= ring_inner (Ring outer inner) /\ ring_inner (Ring outer inner) <= outer
   /\ (0 <= inner -> inner <= outer -> ring_inner (Ring outer inner) == inner))
  /\ 0 <= arc_innerRadius (Arc outer startAngle endAngle options)
  /\ arc_innerRadius (Arc outer startAngle endAngle options) <= outer.
Proof.
  intros Ho. split; [apply clamp_between; assumption|].
  unfold Arc. cbn [arc_innerRadius].
  destruct (opt_innerRadius options) as [r|].
  - destruct (clamp_between 0 outer r Ho) as (A & B & _). split; assumption.
  - destruct (opt_thickness options) as [th|]; [|split; lra].
    destruct (Math_max_spec 0 th) as (A & _ & _).
    destruct (Math_max_spec 0 (outer - Math_max 0 th)) as (D & E & F).
    set (inner' := Math_max 0 (outer - Math_max 0 th)) in *.
    destruct F as [F | F]; apply Qeq_eq_weak in F; split; lra.
Qed.

Lemma inner_radius_clamped_witness :
  0 <= ring_inner (Ring 80 120) /\ ring_inner (Ring 80 120) <= 80 /\
  0 <= arc_innerRadius
         (Arc 80 0 1 {| opt_innerRadius := None; opt_thickness := Some 200;
                        opt_counterclockwise := None |}).
Proof.
  destruct (inner_radius_clamped 80 120 0 1
              {| opt_innerRadius := None; opt_thickness := Some 200;
                 opt_counterclockwise := None |})
    as ((A & B & _) & C & _); [discriminate|].
  split; [exact A|]. split; [exact B | exact C].
Defined.

Lemma corner_radius_range r w h :
  0 <= w -> 0 <= h ->
  0 <= Math_min (Math_max 0 r) (Math_min w h / 2) /\
  Math_min (Math_max 0 r) (Math_min w h / 2) <= w * (1 # 2) /\
  Math_min (Math_max 0 r) (Math_min w h / 2) <= h * (1 # 2).
Proof.
  intros Hw Hh.
  destruct (Math_min_spec w h) as (A & B & C).
  assert (Hm : 0 <= Math_min w h) by (destruct C as [-> | ->]; assumption).
  pose proof (Qdiv2 (Math_min w h)) as Hhalf.
  set (m := Math_min w h / 2) in *.
  assert (Hmw : Math_min w h <= w /\ Math_min w h <= h) by (split; lra).
  set (mwh := Math_min w h) in *.
  destruct (Math_max_spec 0 r) as (D & _ & _).
  set (r0 := Math_max 0 r) in *.
  destruct (Math_min_spec r0 m) as (E & F & G).
  set (t := Math_min r0 m) in *.
  destruct G as [G | G]; apply Qeq_eq_weak in G; repeat split; lra.
Qed.

(** For a rectangle of non-negative size, every point named by the path of
    [buildRoundRect], control points included, lies inside the rectangle,
    whatever radii are asked for: the radii are cut down to half the shorter
    side and negative ones are taken as 0. *)
Theorem buildRoundRect_in_box x y w h radius :
  0 <= w -> 0 <= h ->
  forall c p,
    In c (buildRoundRect x y w h radius) -> In p (call_points c) ->
    in_box x y w h p.
Proof.
  intros Hw Hh c p Hc Hp. unfold buildRoundRect in Hc.
  destruct radius as [r | rtl rtr rbr rbl].
  - destruct (corner_radius_range r w h Hw Hh) as (A & B & C).
    set (t := Math_min (Math_max 0 r) (Math_min w h / 2)) in *.
    simpl in Hc.
    repeat (destruct Hc as [<- | Hc];
            [simpl in Hp;
             repeat (destruct Hp as [<- | Hp];
                     [unfold in_box; simpl; repeat split; lra|]);
             destruct Hp|]).
    destruct Hc.
  - destruct (corner_radius_range rtl w h Hw Hh) as (A1 & B1 & C1).
    destruct (corner_radius_range rtr w h Hw Hh) as (A2 & B2 & C2).
    destruct (corner_radius_range rbr w h Hw Hh) as (A3 & B3 & C3).
    destruct (corner_radius_range rbl w h Hw Hh) as (A4 & B4 & C4).
    set (t1 := Math_min (Math_max 0 rtl) (Math_min w h / 2)) in *.
    set (t2 := Math_min (Math_max 0 rtr) (Math_min w h / 2)) in *.
    set (t3 := Math_min (Math_max 0 rbr) (Math_min w h / 2)) in *.
    set (t4 := Math_min (Math_max 0 rbl) (Math_min w h / 2)) in *.
    simpl in Hc.
    repeat (destruct Hc as [<- | Hc];
            [simpl in Hp;
             repeat (destruct Hp as [<- | Hp];
                     [unfold in_box; simpl; repeat split; lra|]);
             destruct Hp|]).
    destruct Hc.
Qed.

Lemma buildRoundRect_in_box_witness :
  Forall (fun c => Forall (in_box (-80) (-30) 160 60) (call_points c))
         (buildRoundRect (-80) (-30) 160 60 (rr_radius (Capsule 160 60))).
Proof.
  apply Forall_forall. intros c Hc. apply Forall_forall. intros p Hp.
  apply (buildRoundRect_in_box (-80) (-30) 160 60
           (rr_radius (Capsule 160 60))
           ltac:(discriminate) ltac:(discriminate) c p Hc Hp).
Defined.

(** ** The extent of a list of points *)

Lemma least_of_first f p :
  least_of (if Bounds.below (f p) None then Some (f p) else None) f [p].
Proof.
  exists p. simpl. split; [now left|]. split; [reflexivity|].
  intros q [<-|[]]. lra.
Qed.

Lemma greatest_of_first f p :
  greatest_of (if Bounds.above (f p) None then Some (f p) else None) f [p].
Proof.
  exists p. simpl. split; [now left|]. split; [reflexivity|].
  intros q [<-|[]]. lra.
Qed.

Lemma least_of_step m f pts p :
  least_of m f pts ->
  least_of (if Bounds.below (f p) m then Some (f p) else m) f (pts ++ [p]).
Proof.
  intros (b & Hb & -> & Hall). simpl.
  destruct (Qltb (f p) (f b)) eqn:E;
    [apply Qltb_lt in E | apply Qltb_ge in E].
  - exists p. split; [apply in_or_app; right; now left|].
    split; [reflexivity|].
    intros q Hq. apply in_app_or in Hq as [Hq|[<-|[]]]; [|lra].
    specialize (Hall q Hq). lra.
  - exists b. split; [apply in_or_app; now left|].
    split; [reflexivity|].
    intros q Hq. apply in_app_or in Hq as [Hq|[<-|[]]]; [|lra].
    now apply Hall.
Qed.

Lemma greatest_of_step m f pts p :
  greatest_of m f pts ->
  greatest_of (if Bounds.above (f p) m then Some (f p) else m) f (pts ++ [p]).
Proof.
  intros (a & Ha & -> & Hall). simpl.
  destruct (Qltb (f a) (f p)) eqn:E;
    [apply Qltb_lt in E | apply Qltb_ge in E].
  - exists p. split; [apply in_or_app; right; now left|].
    split; [reflexivity|].
    intros q Hq. apply in_app_or in Hq as [Hq|[<-|[]]]; [|lra].
    specialize (Hall q Hq). lra.
  - exists a. split; [apply in_or_app; now left|].
    split; [reflexivity|].
    intros q Hq. apply in_app_or in Hq as [Hq|[<-|[]]]; [|lra].
    now apply Hall.
Qed.

Lemma fold_extend_spans ps e pts :
  least_of (Bounds.minX e) Vec2.x pts /\
  greatest_of (Bounds.maxX e) Vec2.x pts /\
  least_of (Bounds.minY e) Vec2.y pts /\
  greatest_of (Bounds.maxY e) Vec2.y pts ->
  let e' := fold_left Bounds.extend ps e in
  least_of (Bounds.minX e') Vec2.x (pts ++ ps) /\
  greatest_of (Bounds.maxX e') Vec2.x (pts ++ ps) /\
  least_of (Bounds.minY e') Vec2.y (pts ++ ps) /\
  greatest_of (Bounds.maxY e') Vec2.y (pts ++ ps).
Proof.
  revert e pts. induction ps as [|p ps IH]; intros e pts H.
  - simpl. now rewrite app_nil_r.
  - simpl. change (pts ++ p :: ps) with (pts ++ [p] ++ ps).
    rewrite app_assoc. apply IH.
    destruct H as (A & B & C & D). unfold Bounds.extend. simpl.
    repeat split;
      [ now apply least_of_step | now apply greatest_of_step
      | now apply least_of_step | now apply greatest_of_step ].
Qed.

Lemma pathBounds_spans p ps :
  exists a b c d,
    (In a (p :: ps) /\ In b (p :: ps) /\ In c (p :: ps) /\ In d (p :: ps)) /\
    Bounds.pathBounds (p :: ps)
    = Some {| Bounds.size_w := Vec2.x a - Vec2.x b;
              Bounds.size_h := Vec2.y c - Vec2.y d |} /\
    forall q, In q (p :: ps) ->
      (Vec2.x b <= Vec2.x q /\ Vec2.x q <= Vec2.x a) /\
      (Vec2.y d <= Vec2.y q /\ Vec2.y q <= Vec2.y c).
Proof.
  unfold Bounds.pathBounds. cbn [fold_left].
  pose proof (fold_extend_spans ps
                (Bounds.extend
                   {| Bounds.minX := None; Bounds.minY := None;
                      Bounds.maxX := None; Bounds.maxY := None |} p) [p]) as H.
  cbv zeta in H. change ([p] ++ ps) with (p :: ps) in H.
  destruct H as ((b & Hb & Eb & Lb) & (a & Ha & Ea & La)
                 & (d & Hd & Ed & Ld) & (c & Hc & Ec & Lc)).
  { unfold Bounds.extend. cbn [Bounds.minX Bounds.minY Bounds.maxX Bounds.maxY].
    repeat split;
      [ apply least_of_first | apply greatest_of_first
      | apply least_of_first | apply greatest_of_first ]. }
  exists a, b, c, d. rewrite Eb, Ea, Ed, Ec.
  split; [auto|]. split; [reflexivity|].
  intros q Hq. repeat split; auto.
Qed.

(** [pathBounds] of an empty array is the degenerate record (both sizes
    [-Infinity] in the source).  For a non-empty array it returns the
    extent of the points: the width is the difference between the x of a
    rightmost and of a leftmost point, the height likewise in y, so neither
    is negative and no two points lie further apart than that. *)
Theorem pathBounds_extent p ps :
  Bounds.pathBounds [] = None /\
  exists size,
    Bounds.pathBounds (p :: ps) = Some size /\
    0 <= Bounds.size_w size /\ 0 <= Bounds.size_h size /\
    (forall q q', In q (p :: ps) -> In q' (p :: ps) ->
       Vec2.x q - Vec2.x q' <= Bounds.size_w size /\
       Vec2.y q - Vec2.y q' <= Bounds.size_h size) /\
    (exists a b c d,
       In a (p :: ps) /\ In b (p :: ps) /\ In c (p :: ps) /\ In d (p :: ps) /\
       Bounds.size_w size = Vec2.x a - Vec2.x b /\
       Bounds.size_h size = Vec2.y c - Vec2.y d).
Proof.
  split; [reflexivity|].
  destruct (pathBounds_spans p ps) as (a & b & c & d & Hin & E & Hall).
  eexists. split; [exact E|]. simpl.
  destruct Hin as (Ha & Hb & Hc & Hd).
  split; [destruct (Hall a Ha); lra|].
  split; [destruct (Hall c Hc); lra|].
  split.
  - intros q q' Hq Hq'. destruct (Hall q Hq), (Hall q' Hq'). split; lra.
  - exists a, b, c, d. tauto.
Qed.

(** ** Triangles *)

Ltac pick_point H :=
  simpl in H; destruct H as [<-|[<-|[<-|[]]]].

(** For a non-negative width and height, every variant of [Triangle] (the
    four directions and the four right-angle corners) has exactly three
    points, all inside the rectangle of that size centred on the origin, and
    [pathBounds] of them gives back the width and the height. *)
Theorem Triangle_bounds w h direction rightAngle :
  0 <= w -> 0 <= h ->
  List.length (Tri.points w h direction rightAngle) = 3%nat /\
  (forall p, In p (Tri.points w h direction rightAngle) ->
     in_box (- w / 2) (- h / 2) w h p) /\
  exists size,
    Bounds.pathBounds (Tri.points w h direction rightAngle) = Some size /\
    Bounds.size_w size == w /\ Bounds.size_h size == h.
Proof.
  intros Hw Hh.
  assert (Hshape : exists p1 p2 p3,
            Tri.points w h direction rightAngle = [p1; p2; p3]).
  { unfold Tri.points.
    destruct rightAngle as [[]|]; [| | | |destruct direction as [[]|]];
      do 3 eexists; reflexivity. }
  destruct Hshape as (p1 & p2 & p3 & E).
  split; [now rewrite E|].
  assert (Hbox : forall p, In p (Tri.points w h direction rightAngle) ->
                   in_box (- w / 2) (- h / 2) w h p).
  { intros p Hp. unfold Tri.points in Hp. unfold in_box.
    destruct rightAngle as [[]|]; [| | | |destruct direction as [[]|]];
      pick_point Hp; simpl; rewrite ?Qdiv2; repeat split; lra. }
  split; [exact Hbox|].
  rewrite E in *.
  destruct (pathBounds_spans p1 [p2; p3])
    as (a & b & c & d & (Ha & Hb & Hc & Hd) & Eb & Hall).
  eexists. split; [exact Eb|]. simpl.
  pose proof (Hall p1 (or_introl eq_refl)) as [[X1 X1'] [Y1 Y1']].
  pose proof (Hall p2 (or_intror (or_introl eq_refl))) as [[X2 X2'] [Y2 Y2']].
  pose proof (Hall p3 (or_intror (or_intror (or_introl eq_refl))))
    as [[X3 X3'] [Y3 Y3']].
  pose proof (Hbox a Ha) as [[Ax Ax'] [Ay Ay']].
  pose proof (Hbox b Hb) as [[Bx Bx'] [By By']].
  pose proof (Hbox c Hc) as [[Cx Cx'] [Cy Cy']].
  pose proof (Hbox d Hd) as [[Dx Dx'] [Dy Dy']].
  clear Hall Hbox Ha Hb Hc Hd Eb.
  unfold Tri.points in E.
  destruct rightAngle as [[]|]; [| | | |destruct direction as [[]|]];
    injection E as <- <- <-; simpl in *; rewrite ?Qdiv2 in *; split; lra.
Qed.

Lemma Triangle_bounds_witness :
  exists size,
    Bounds.pathBounds (Tri.points 120 100 (Some Tri.left) None) = Some size /\
    Bounds.size_w size == 120 /\ Bounds.size_h size == 100.
Proof.
  apply (Triangle_bounds 120 100 (Some Tri.left) None); discriminate.
Defined.

(** ** Flattened Bezier paths *)

Lemma bezier_run_snoc cmds c :
  Bezier.run (cmds ++ [c]) = Bezier.step (Bezier.run cmds) c.
Proof. unfold Bezier.run. now rewrite fold_left_app. Qed.

Lemma samples_last steps at_t :
  Bezier.samples (S steps) at_t
  = map (fun i => at_t (inject_Z (Z.of_nat i) / inject_Z (Z.of_nat (S steps))))
        (seq 1 steps)
    ++ [at_t (inject_Z (Z.of_nat (S steps)) / inject_Z (Z.of_nat (S steps)))].
Proof.
  unfold Bezier.samples. rewrite seq_S, map_app. reflexivity.
Qed.

Lemma samples_length steps at_t :
  List.length (Bezier.samples steps at_t) = steps.
Proof. unfold Bezier.samples. now rewrite length_map, length_seq. Qed.

(** What one more command adds to the flattened path.  A command with an
    end point leaves that point last: a curve is sampled up to and including
    its end.  [close] repeats the first point, or adds nothing to an empty
    path.  The path grows by 1 point for [moveTo] and [lineTo], 20 for
    [quadTo], 30 for [cubicTo] and 1 for [close] on a path that has points. *)
Theorem bezierToPoints_snoc cmds c :
  (forall e, Bezier.target c = Some e ->
     exists front p,
       Bezier.bezierToPoints (cmds ++ [c]) = front ++ [p] /\ vec_eq p e) /\
  (c = Bezier.close ->
     match Bezier.bezierToPoints cmds with
     | first :: rest =>
         Bezier.bezierToPoints (cmds ++ [c]) = (first :: rest) ++ [first]
     | [] => Bezier.bezierToPoints (cmds ++ [c]) = []
     end) /\
  (c <> Bezier.close \/ Bezier.bezierToPoints cmds <> [] ->
     List.length (Bezier.bezierToPoints (cmds ++ [c]))
     = (List.length (Bezier.bezierToPoints cmds) + Bezier.added c)%nat).
Proof.
  unfold Bezier.bezierToPoints. rewrite bezier_run_snoc.
  set (s := Bezier.run cmds).
  split; [|split].
  - intros e He. destruct c; simpl in He; try discriminate;
      injection He as <-; cbn [Bezier.step Bezier.points].
    + eexists. eexists. split; [reflexivity|]. split; reflexivity.
    + eexists. eexists. split; [reflexivity|]. split; reflexivity.
    + rewrite samples_last, app_assoc.
      eexists. eexists. split; [reflexivity|].
      assert (Ht : inject_Z (Z.of_nat 20) / inject_Z (Z.of_nat 20) == 1)
        by reflexivity.
      split; cbn [Vec2.x Vec2.y]; rewrite Ht; ring.
    + rewrite samples_last, app_assoc.
      eexists. eexists. split; [reflexivity|].
      assert (Ht : inject_Z (Z.of_nat 30) / inject_Z (Z.of_nat 30) == 1)
        by reflexivity.
      split; cbn [Vec2.x Vec2.y]; rewrite Ht; ring.
  - intros ->. cbn [Bezier.step].
    destruct (Bezier.points s) as [|first rest] eqn:E.
    + exact E.
    + cbn [Bezier.points]. destruct first. reflexivity.
  - intros H. destruct c; cbn [Bezier.step Bezier.points Bezier.added];
      rewrite ?length_app, ?samples_length; try reflexivity.
    destruct (Bezier.points s) as [|first rest] eqn:E.
    + destruct H as [H|H]; [now elim H | now elim H].
    + cbn [Bezier.points]. now rewrite length_app.
Qed.

Lemma bezierToPoints_snoc_witness :
  exists front p,
    Bezier.bezierToPoints
      ([Bezier.moveTo 0 0; Bezier.lineTo 10 0] ++ [Bezier.quadTo 20 0 20 10])
    = front ++ [p] /\ vec_eq p (Vec2.make 20 10).
Proof.
  apply (proj1 (bezierToPoints_snoc [Bezier.moveTo 0 0; Bezier.lineTo 10 0]
                  (Bezier.quadTo 20 0 20 10))).
  reflexivity.
Defined.

(** ** Evaluating a spec at the ends of its run *)

Lemma lerp_start a b e : e == 0 -> lerp a b e == a.
Proof. intros H. unfold lerp. rewrite H. ring. Qed.

Section SpecEndpoints.
Variable spec : Anim.t.
Variables time index : Q.
Let d := nullish (Anim.duration spec) 0.
Let begins (s : Q) : Q :=
  s + nullish (Anim.delay spec) 0 + index * nullish (Anim.stagger spec) 0.

Hypothesis no_keyframes :
  Anim.keyframes spec = None \/ Anim.keyframes spec = Some [].

Lemma evalOpacity_phase s :
  resolveStart (Anim.start spec) 0 = Num s ->
  evalOpacity spec time index
  = Ok (Num (lerp (Anim.from spec) (Anim.to spec)
               (phase time d (nullish (Anim.loop spec) false) s
                  (nullish (Anim.delay spec) 0)
                  (nullish (Anim.repeatDelay spec) 0) (Anim.ease spec)
                  (nullish (Anim.stagger spec) 0) index))).
Proof.
  intros Hs. unfold evalOpacity. rewrite Hs.
  destruct no_keyframes as [-> | ->]; reflexivity.
Qed.

End SpecEndpoints.


(** ** Stepped trims *)

Lemma trim_steps_start n :
  1 < n -> yields (trim_steps n (Num 0)) 1.
Proof.
  intros Hn. unfold trim_steps, yields.
  assert (E0 : 0 * (n + 1) == 0) by ring.
  rewrite (Qfloor_comp _ _ E0). change (Qfloor 0) with 0%Z.
  change (inject_Z 0) with 0.
  assert (H1 : Qltb n 0 = false) by (apply Qltb_ge; lra).
  assert (H2 : Qeq_bool n 0 = false).
  { destruct (Qeq_bool n 0) eqn:E; [|reflexivity].
    apply Qeq_bool_iff in E. lra. }
  rewrite H1, H2. field. lra.
Qed.

Lemma trim_steps_end n p :
  1 < n -> p == 1 -> yields (trim_steps n (Num p)) 0.
Proof.
  intros Hn Hp. unfold trim_steps, yields.
  assert (E1 : p * (n + 1) == n + 1) by (rewrite Hp; ring).
  rewrite (Qfloor_comp _ _ E1), Qfloor_succ, inject_Z_plus.
  change (inject_Z 1) with 1.
  pose proof (Qlt_floor n) as Hf. rewrite inject_Z_plus in Hf.
  change (inject_Z 1) with 1 in Hf.
  assert (H1 : Qltb n (inject_Z (Qfloor n) + 1) = true)
    by (apply Qltb_lt; exact Hf).
  assert (H2 : Qeq_bool n 0 = false).
  { destruct (Qeq_bool n 0) eqn:E; [|reflexivity].
    apply Qeq_bool_iff in E. lra. }
  rewrite H1, H2. field. lra.
Qed.

Section TrimEndpoints.
Variable spec : Anim.t.
Variable time : Q.
Let d := nullish (Anim.duration spec) 0.
Let begins (s : Q) : Q := s + nullish (Anim.delay spec) 0.

Hypothesis positive_duration : 0 < d.
Hypothesis no_loop : nullish (Anim.loop spec) false = false.

End TrimEndpoints.



Lemma pathBounds_extent_witness :
  exists size,
    Bounds.pathBounds [Vec2.make 3 4; Vec2.make (-1) 9; Vec2.make 2 0]
    = Some size /\
    Vec2.x (Vec2.make 3 4) - Vec2.x (Vec2.make (-1) 9) <= Bounds.size_w size.
Proof.
  destruct (proj2 (pathBounds_extent (Vec2.make 3 4)
                     [Vec2.make (-1) 9; Vec2.make 2 0]))
    as (size & E & _ & _ & Hall & _).
  exists size. split; [exact E|].
  apply (Hall (Vec2.make 3 4) (Vec2.make (-1) 9)).
  - now left.
  - right. now left.
Defined.
